(** * Smart AI Buddy client: session layer, event bus and artifact cache

    A shallow embedding of the TypeScript sources
      - [lib/secureStorage]  (credential store),
      - [lib/toolsCache.ts]  (artifact cache),
      - [lib/eventBus]       (publish/subscribe),
      - [providers/AuthProvider.tsx] (session coordinator and gateway),
      - [app/(tabs)/notes.tsx] (the note deletion flow),
    together with the properties the specification states about them.

    Conventions.  A JavaScript string is a [string]; its characters are
    read as Latin-1 code units.  [null] and [undefined] of a
    [string | null] are [None].  A rejected promise or a thrown exception
    is [Throw e]; the platform services (secure store, AsyncStorage,
    network) are explicit state plus an environment saying which of their
    calls reject. *)

From stdpp Require Import gmap strings list fin_maps.
From Stdlib Require Import ZArith Ascii String.

Local Open Scope string_scope.
Local Open Scope Z_scope.

(** ** Values shared by all components *)

(** JSON values, as produced by [res.json()] and [JSON.parse]. *)
#[warnings="-register-all"]
Inductive json : Type :=
| JNull
| JBool (b : bool)
| JNum (z : Z)
| JStr (s : string)
| JArr (items : list json)
| JObj (fields : list (string * json)).

(** [o.k] on a parsed value: [None] is [undefined]. *)
Fixpoint assoc (k : string) (fields : list (string * json)) : option json :=
  match fields with
  | [] => None
  | (k', v) :: rest => if String.eqb k k' then Some v else assoc k rest
  end.

Definition field (k : string) (j : json) : option json :=
  match j with
  | JObj fields => assoc k fields
  | _ => None
  end.

(** JavaScript truthiness, for the conditions [if (x)] and [!x]. *)
Definition truthy_json (j : json) : bool :=
  match j with
  | JNull => false
  | JBool b => b
  | JNum z => negb (z =? 0)
  | JStr s => negb (String.eqb s "")
  | JArr _ | JObj _ => true
  end.

Definition truthy_field (o : option json) : bool :=
  match o with
  | Some j => truthy_json j
  | None => false
  end.

(** Truthiness of a [string | null]: [null] and the empty string are falsy. *)
Definition truthy (o : option string) : bool :=
  match o with
  | Some s => negb (String.eqb s "")
  | None => false
  end.

Arguments truthy : simpl never.

(** What a [catch] can receive. *)
Inductive exn : Type :=
| StorageError                      (* AsyncStorage rejected *)
| NetworkError                      (* fetch rejected *)
| Error (msg : string)              (* new Error(msg) *)
| HttpError (msg : string) (status : Z) (body : json).
                                    (* Object.assign(new Error(msg), {status, json}) *)

Inductive result (A : Type) : Type :=
| Ok (a : A)
| Throw (e : exn).
Arguments Ok {A} a.
Arguments Throw {A} e.

(** ** Credential store: lib/secureStorage *)

Module SecureStorage.

Inductive platform := Web | Native.

(** The module object [import("expo-secure-store")] resolves to
    ([mod.default ?? mod]): which functions it has and which calls reject. *)
Record SecureModule := {
  has_isAvailableAsync : bool;
  isAvailableAsync : option bool;          (* [None]: the call rejects *)
  has_getItemAsync : bool;
  has_setItemAsync : bool;
  has_deleteItemAsync : bool;
  getItemAsync_rejects : string -> bool;
  setItemAsync_rejects : string -> bool;
  deleteItemAsync_rejects : string -> bool
}.

Record Env := {
  OS : platform;
  secure_import : option SecureModule;     (* [None]: the import rejects *)
  async_getItem_rejects : string -> bool;
  async_setItem_rejects : string -> bool;
  async_removeItem_rejects : string -> bool
}.

(** The two persistent stores of the device. *)
Record Storage := {
  secure : gmap string string;
  async : gmap string string
}.

Definition set_secure (m : gmap string string) (st : Storage) : Storage :=
  {| secure := m; async := async st |}.
Definition set_async (m : gmap string string) (st : Storage) : Storage :=
  {| secure := secure st; async := m |}.

(** *** AsyncStorage *)

Definition AsyncStorage_getItem (e : Env) (k : string) (st : Storage)
  : result (option string) :=
  if async_getItem_rejects e k then Throw StorageError else Ok (async st !! k).

Definition AsyncStorage_setItem (e : Env) (k v : string) (st : Storage)
  : result unit * Storage :=
  if async_setItem_rejects e k then (Throw StorageError, st)
  else (Ok tt, set_async (<[k:=v]> (async st)) st).

Definition AsyncStorage_removeItem (e : Env) (k : string) (st : Storage)
  : result unit * Storage :=
  if async_removeItem_rejects e k then (Throw StorageError, st)
  else (Ok tt, set_async (delete k (async st)) st).

(** [multiRemove(keys)]: one native call; it rejects as a whole. *)
Definition AsyncStorage_multiRemove (e : Env) (ks : list string) (st : Storage)
  : result unit * Storage :=
  if existsb (async_removeItem_rejects e) ks then (Throw StorageError, st)
  else (Ok tt, set_async (foldr delete (async st) ks) st).

(** *** SecureStore calls: [None] when the call throws (a missing function
    is a TypeError, a rejection is a rejection; both reach the [catch]). *)

Definition SecureStore_getItemAsync (m : SecureModule) (k : string) (st : Storage)
  : option (option string) :=
  if has_getItemAsync m && negb (getItemAsync_rejects m k)
  then Some (secure st !! k) else None.

Definition SecureStore_setItemAsync (m : SecureModule) (k v : string) (st : Storage)
  : option Storage :=
  if has_setItemAsync m && negb (setItemAsync_rejects m k)
  then Some (set_secure (<[k:=v]> (secure st)) st) else None.

Definition SecureStore_deleteItemAsync (m : SecureModule) (k : string) (st : Storage)
  : option Storage :=
  if has_deleteItemAsync m && negb (deleteItemAsync_rejects m k)
  then Some (set_secure (delete k (secure st)) st) else None.

(** [getSecureStore]: [None] is [null]. *)
Definition getSecureStore (e : Env) : option SecureModule :=
  match OS e with
  | Web => None
  | Native =>
      match secure_import e with
      | None => None                                   (* catch *)
      | Some m =>
          if has_isAvailableAsync m then
            match isAvailableAsync m with
            | None => None                             (* catch *)
            | Some ok => if ok then Some m else None
            end
          else if negb (has_getItemAsync m) || negb (has_setItemAsync m)
                  || negb (has_deleteItemAsync m)
          then None
          else Some m
      end
  end.

Definition getItem (e : Env) (k : string) (st : Storage) : result (option string) :=
  match OS e with
  | Web => AsyncStorage_getItem e k st
  | Native =>
      match getSecureStore e with
      | Some m =>
          match SecureStore_getItemAsync m k st with
          | Some v => Ok v
          | None => AsyncStorage_getItem e k st        (* fall through *)
          end
      | None => AsyncStorage_getItem e k st
      end
  end.

Definition setItem (e : Env) (k v : string) (st : Storage) : result unit * Storage :=
  match OS e with
  | Web => AsyncStorage_setItem e k v st
  | Native =>
      match getSecureStore e with
      | Some m =>
          match SecureStore_setItemAsync m k v st with
          | Some st' => (Ok tt, st')
          | None => AsyncStorage_setItem e k v st      (* fall through *)
          end
      | None => AsyncStorage_setItem e k v st
      end
  end.

Definition deleteItem (e : Env) (k : string) (st : Storage) : result unit * Storage :=
  match OS e with
  | Web => AsyncStorage_removeItem e k st
  | Native =>
      match getSecureStore e with
      | Some m =>
          match SecureStore_deleteItemAsync m k st with
          | Some st' => (Ok tt, st')
          | None => AsyncStorage_removeItem e k st     (* fall through *)
          end
      | None => AsyncStorage_removeItem e k st
      end
  end.

(** The secure path is out of use for a call: the platform is the web, no
    usable module was loaded, or the module's call throws. *)
Definition secure_path_fails_get (e : Env) (k : string) (st : Storage) : Prop :=
  match getSecureStore e with
  | Some m => SecureStore_getItemAsync m k st = None
  | None => True
  end.
Definition secure_path_fails_set (e : Env) (k v : string) (st : Storage) : Prop :=
  match getSecureStore e with
  | Some m => SecureStore_setItemAsync m k v st = None
  | None => True
  end.
Definition secure_path_fails_delete (e : Env) (k : string) (st : Storage) : Prop :=
  match getSecureStore e with
  | Some m => SecureStore_deleteItemAsync m k st = None
  | None => True
  end.

(** An environment in which nothing rejects and the secure store is usable. *)
Definition healthy_module : SecureModule :=
  {| has_isAvailableAsync := true; isAvailableAsync := Some true;
     has_getItemAsync := true; has_setItemAsync := true; has_deleteItemAsync := true;
     getItemAsync_rejects := fun _ => false;
     setItemAsync_rejects := fun _ => false;
     deleteItemAsync_rejects := fun _ => false |}.

Definition native_env : Env :=
  {| OS := Native; secure_import := Some healthy_module;
     async_getItem_rejects := fun _ => false;
     async_setItem_rejects := fun _ => false;
     async_removeItem_rejects := fun _ => false |}.

Definition web_env : Env :=
  {| OS := Web; secure_import := None;
     async_getItem_rejects := fun _ => false;
     async_setItem_rejects := fun _ => false;
     async_removeItem_rejects := fun _ => false |}.

(** A device whose keychain is locked: every secure call rejects. *)
Definition locked_module : SecureModule :=
  {| has_isAvailableAsync := true; isAvailableAsync := Some true;
     has_getItemAsync := true; has_setItemAsync := true; has_deleteItemAsync := true;
     getItemAsync_rejects := fun _ => true;
     setItemAsync_rejects := fun _ => true;
     deleteItemAsync_rejects := fun _ => true |}.

Definition locked_env : Env :=
  {| OS := Native; secure_import := Some locked_module;
     async_getItem_rejects := fun _ => false;
     async_setItem_rejects := fun _ => false;
     async_removeItem_rejects := fun _ => false |}.

Definition empty_storage : Storage := {| secure := ∅; async := ∅ |}.

Lemma web_has_no_secure_store e : OS e = Web -> getSecureStore e = None.
Proof. unfold getSecureStore. by intros ->. Qed.

Lemma getItem_fallback e k st :
  secure_path_fails_get e k st -> getItem e k st = AsyncStorage_getItem e k st.
Proof.
  unfold secure_path_fails_get, getItem.
  destruct (OS e); [done|].
  destruct (getSecureStore e) as [m|]; [|done].
  by intros ->.
Qed.

Lemma setItem_fallback e k v st :
  secure_path_fails_set e k v st -> setItem e k v st = AsyncStorage_setItem e k v st.
Proof.
  unfold secure_path_fails_set, setItem.
  destruct (OS e); [done|].
  destruct (getSecureStore e) as [m|]; [|done].
  by intros ->.
Qed.

Lemma deleteItem_fallback e k st :
  secure_path_fails_delete e k st -> deleteItem e k st = AsyncStorage_removeItem e k st.
Proof.
  unfold secure_path_fails_delete, deleteItem.
  destruct (OS e); [done|].
  destruct (getSecureStore e) as [m|]; [|done].
  by intros ->.
Qed.

Lemma storage_eq st1 st2 :
  secure st1 = secure st2 -> async st1 = async st2 -> st1 = st2.
Proof. destruct st1, st2; simpl; congruence. Qed.

Lemma setItem_idempotent e k v st :
  setItem e k v (snd (setItem e k v st)) = setItem e k v st.
Proof.
  unfold setItem, AsyncStorage_setItem, SecureStore_setItemAsync.
  destruct (OS e), (getSecureStore e) as [m|];
    repeat (case_match; simplify_eq /=); try done;
    f_equal; apply storage_eq; simpl; by rewrite ?insert_insert_eq.
Qed.

Lemma deleteItem_idempotent e k st :
  deleteItem e k (snd (deleteItem e k st)) = deleteItem e k st.
Proof.
  unfold deleteItem, AsyncStorage_removeItem, SecureStore_deleteItemAsync.
  destruct (OS e), (getSecureStore e) as [m|];
    repeat (case_match; simplify_eq /=); try done;
    f_equal; apply storage_eq; simpl; by rewrite ?delete_delete_eq.
Qed.

Lemma deleteItem_absent e k st :
  secure st !! k = None -> async st !! k = None ->
  snd (deleteItem e k st) = st.
Proof.
  intros Hs Ha.
  unfold deleteItem, AsyncStorage_removeItem, SecureStore_deleteItemAsync.
  destruct (OS e), (getSecureStore e) as [m|];
    repeat (case_match; simplify_eq /=); try done;
    apply storage_eq; simpl; by rewrite ?delete_id.
Qed.

Lemma deleteItem_outcome_independent e k st st' :
  fst (deleteItem e k st) = fst (deleteItem e k st').
Proof.
  unfold deleteItem, AsyncStorage_removeItem, SecureStore_deleteItemAsync.
  destruct (OS e), (getSecureStore e) as [m|];
    repeat (case_match; simplify_eq /=); done.
Qed.

Lemma getItem_throws e k st x :
  getItem e k st = Throw x -> x = StorageError /\ async_getItem_rejects e k = true.
Proof.
  unfold getItem, AsyncStorage_getItem.
  repeat (case_match; simplify_eq /=); naive_solver.
Qed.

Lemma setItem_throws e k v st x :
  fst (setItem e k v st) = Throw x ->
  x = StorageError /\ async_setItem_rejects e k = true.
Proof.
  unfold setItem, AsyncStorage_setItem.
  repeat (case_match; simplify_eq /=); naive_solver.
Qed.

Lemma deleteItem_throws e k st x :
  fst (deleteItem e k st) = Throw x ->
  x = StorageError /\ async_removeItem_rejects e k = true.
Proof.
  unfold deleteItem, AsyncStorage_removeItem.
  repeat (case_match; simplify_eq /=); naive_solver.
Qed.

(** C9. Credential-store fallback and idempotence.  For [getItem],
    [setItem] and [deleteItem] on any key: when the secure path is out
    of use (web, no usable module, or the module's call throws) the call
    is served by AsyncStorage within that same call, and a call can only
    fail when AsyncStorage itself rejects; repeating [setItem] or
    [deleteItem] changes nothing further and gives the same outcome
    ([getItem] does not write at all); [deleteItem] on a key that is in
    neither store leaves both stores as they are, and whether it fails
    never depends on what the stores hold. *)
Theorem credential_store_fallback_and_idempotence
  (e : Env) (k v : string) (st : Storage) :
  (secure_path_fails_get e k st ->
     getItem e k st = AsyncStorage_getItem e k st) /\
  (secure_path_fails_set e k v st ->
     setItem e k v st = AsyncStorage_setItem e k v st) /\
  (secure_path_fails_delete e k st ->
     deleteItem e k st = AsyncStorage_removeItem e k st) /\
  (forall x, getItem e k st = Throw x ->
     x = StorageError /\ async_getItem_rejects e k = true) /\
  (forall x, fst (setItem e k v st) = Throw x ->
     x = StorageError /\ async_setItem_rejects e k = true) /\
  (forall x, fst (deleteItem e k st) = Throw x ->
     x = StorageError /\ async_removeItem_rejects e k = true) /\
  setItem e k v (snd (setItem e k v st)) = setItem e k v st /\
  deleteItem e k (snd (deleteItem e k st)) = deleteItem e k st /\
  (secure st !! k = None -> async st !! k = None ->
     snd (deleteItem e k st) = st) /\
  (forall st', fst (deleteItem e k st) = fst (deleteItem e k st')).
Proof.
  split_and!.
  - apply getItem_fallback.
  - apply setItem_fallback.
  - apply deleteItem_fallback.
  - intros x. apply getItem_throws.
  - intros x. apply setItem_throws.
  - intros x. apply deleteItem_throws.
  - apply setItem_idempotent.
  - apply deleteItem_idempotent.
  - apply deleteItem_absent.
  - apply deleteItem_outcome_independent.
Qed.

(** On a device whose keychain is locked, a token written through
    [setItem] lands in AsyncStorage and [getItem] reads it back. *)
Example locked_keychain_round_trip :
  let st := snd (setItem locked_env "accessToken" "t" empty_storage) in
  secure st = ∅ /\ async st !! "accessToken" = Some "t" /\
  getItem locked_env "accessToken" st = Ok (Some "t").
Proof. vm_compute. done. Qed.

(** *** Which store serves a call *)

Definition secure_serves_get (e : Env) (k : string) : bool :=
  match getSecureStore e with
  | Some m => has_getItemAsync m && negb (getItemAsync_rejects m k)
  | None => false
  end.

Definition secure_serves_set (e : Env) (k : string) : bool :=
  match getSecureStore e with
  | Some m => has_setItemAsync m && negb (setItemAsync_rejects m k)
  | None => false
  end.

Lemma getItem_cases e k st :
  getItem e k st =
  if secure_serves_get e k then Ok (secure st !! k) else AsyncStorage_getItem e k st.
Proof.
  unfold getItem, secure_serves_get, SecureStore_getItemAsync.
  destruct (OS e) eqn:Hos.
  - by rewrite (web_has_no_secure_store e Hos).
  - destruct (getSecureStore e) as [m|]; [|done].
    by destruct (has_getItemAsync m && negb (getItemAsync_rejects m k)).
Qed.

Lemma setItem_cases e k v st :
  setItem e k v st =
  if secure_serves_set e k then (Ok tt, set_secure (<[k:=v]> (secure st)) st)
  else AsyncStorage_setItem e k v st.
Proof.
  unfold setItem, secure_serves_set, SecureStore_setItemAsync.
  destruct (OS e) eqn:Hos.
  - by rewrite (web_has_no_secure_store e Hos).
  - destruct (getSecureStore e) as [m|]; [|done].
    by destruct (has_setItemAsync m && negb (setItemAsync_rejects m k)).
Qed.

(** A value written with [setItem] is read back by [getItem] when the
    same store serves both calls (and, if that store is AsyncStorage, it
    answers the read); a write served by the secure store leaves
    AsyncStorage as it was. *)
Theorem setItem_then_getItem (e : Env) (k v : string) (st : Storage) :
  fst (setItem e k v st) = Ok tt ->
  secure_serves_set e k = secure_serves_get e k ->
  (secure_serves_get e k = false -> async_getItem_rejects e k = false) ->
  getItem e k (snd (setItem e k v st)) = Ok (Some v) /\
  (secure_serves_set e k = true -> async (snd (setItem e k v st)) = async st).
Proof.
  rewrite getItem_cases, setItem_cases. unfold AsyncStorage_setItem, AsyncStorage_getItem.
  intros Hok Hsame Hget.
  destruct (secure_serves_set e k); rewrite <- Hsame; simpl in *.
  - by rewrite lookup_insert_eq.
  - destruct (async_setItem_rejects e k); [done|]. simpl.
    rewrite Hget by done. split; [|done]. by rewrite lookup_insert_eq.
Qed.

Lemma setItem_then_getItem_witness :
  getItem native_env "accessToken"
    (snd (setItem native_env "accessToken" "t" empty_storage)) = Ok (Some "t") /\
  getItem locked_env "accessToken"
    (snd (setItem locked_env "accessToken" "t" empty_storage)) = Ok (Some "t").
Proof.
  split.
  - apply (setItem_then_getItem native_env "accessToken" "t" empty_storage);
      [reflexivity|reflexivity|discriminate].
  - apply (setItem_then_getItem locked_env "accessToken" "t" empty_storage);
      [reflexivity|reflexivity|reflexivity].
Defined.

(** The two stores are never reconciled.  When the secure store rejects
    a write but serves the read of the same key, the value goes to
    AsyncStorage and the read does not see it: it still returns what the
    secure store held before the write. *)
Theorem write_during_secure_outage_is_not_read_back
  (e : Env) (k v : string) (st : Storage) :
  secure_serves_set e k = false ->
  secure_serves_get e k = true ->
  getItem e k (snd (setItem e k v st)) = Ok (secure st !! k) /\
  getItem e k (snd (setItem e k v st)) = getItem e k st.
Proof.
  intros Hset Hget. rewrite !getItem_cases, setItem_cases, Hset, Hget.
  unfold AsyncStorage_setItem. by destruct (async_setItem_rejects e k).
Qed.

(** A keychain that reads but rejects every write. *)
Definition read_only_module : SecureModule :=
  {| has_isAvailableAsync := true; isAvailableAsync := Some true;
     has_getItemAsync := true; has_setItemAsync := true; has_deleteItemAsync := true;
     getItemAsync_rejects := fun _ => false;
     setItemAsync_rejects := fun _ => true;
     deleteItemAsync_rejects := fun _ => true |}.

Definition read_only_env : Env :=
  {| OS := Native; secure_import := Some read_only_module;
     async_getItem_rejects := fun _ => false;
     async_setItem_rejects := fun _ => false;
     async_removeItem_rejects := fun _ => false |}.

Lemma write_during_secure_outage_is_not_read_back_witness :
  fst (setItem read_only_env "accessToken" "new"
         {| secure := {[ "accessToken" := "old" ]}; async := ∅ |}) = Ok tt /\
  getItem read_only_env "accessToken"
    (snd (setItem read_only_env "accessToken" "new"
            {| secure := {[ "accessToken" := "old" ]}; async := ∅ |})) = Ok (Some "old").
Proof.
  split; [reflexivity|].
  destruct (write_during_secure_outage_is_not_read_back read_only_env "accessToken" "new"
              {| secure := {[ "accessToken" := "old" ]}; async := ∅ |} eq_refl eq_refl)
    as [H _].
  rewrite H. reflexivity.
Defined.

End SecureStorage.

(** ** Artifact cache: lib/toolsCache.ts *)

Module ToolsCache.
Import SecureStorage.

Definition KEY_FC (noteId : string) : string := "tools:flashcards:" ++ noteId.
Definition KEY_QZ (noteId : string) : string := "tools:quiz:" ++ noteId.

Section WithJSON.

(** The platform's [JSON.parse] ([None]: it throws a SyntaxError) and
    [JSON.stringify] on JSON values. *)
Variable JSON_parse : string -> option json.
Variable JSON_stringify : json -> string.

(** [raw ? JSON.parse(raw) : null] inside [try { ... } catch { return null }].
    The function's [null] is [JNull]. *)
Definition read_cached (e : Env) (key : string) (st : Storage) : json :=
  match AsyncStorage_getItem e key st with
  | Throw _ => JNull                                   (* catch *)
  | Ok raw =>
      if truthy raw then
        match raw with
        | Some r =>
            match JSON_parse r with
            | Some v => v
            | None => JNull                            (* catch *)
            end
        | None => JNull
        end
      else JNull
  end.

(** [try { await AsyncStorage.setItem(key, JSON.stringify(x)) } catch {}] *)
Definition write_cached (e : Env) (key : string) (x : json) (st : Storage) : Storage :=
  snd (AsyncStorage_setItem e key (JSON_stringify x) st).

Definition getFlashcards (e : Env) (noteId : string) (st : Storage) : json :=
  read_cached e (KEY_FC noteId) st.
Definition setFlashcards (e : Env) (noteId : string) (cards : json) (st : Storage)
  : Storage :=
  write_cached e (KEY_FC noteId) cards st.
Definition getQuiz (e : Env) (noteId : string) (st : Storage) : json :=
  read_cached e (KEY_QZ noteId) st.
Definition setQuiz (e : Env) (noteId : string) (quiz : json) (st : Storage)
  : Storage :=
  write_cached e (KEY_QZ noteId) quiz st.

(** [try { await AsyncStorage.multiRemove([KEY_FC(id), KEY_QZ(id)]) } catch {}] *)
Definition clearNoteTools (e : Env) (noteId : string) (st : Storage) : Storage :=
  snd (AsyncStorage_multiRemove e [KEY_FC noteId; KEY_QZ noteId] st).

(** The cache seen as one keyed store, as the specification words it. *)
Inductive kind := Flashcards | Quiz.

Definition key_of (k : kind) (noteId : string) : string :=
  match k with Flashcards => KEY_FC noteId | Quiz => KEY_QZ noteId end.

Definition cache_get (k : kind) (e : Env) (noteId : string) (st : Storage) : json :=
  match k with
  | Flashcards => getFlashcards e noteId st
  | Quiz => getQuiz e noteId st
  end.

Definition cache_set (k : kind) (e : Env) (noteId : string) (items : json)
  (st : Storage) : Storage :=
  match k with
  | Flashcards => setFlashcards e noteId items st
  | Quiz => setQuiz e noteId items st
  end.

Lemma cache_get_read k e noteId st :
  cache_get k e noteId st = read_cached e (key_of k noteId) st.
Proof. by destruct k. Qed.

Lemma cache_set_write k e noteId items st :
  cache_set k e noteId items st = write_cached e (key_of k noteId) items st.
Proof. by destruct k. Qed.

Lemma truthy_Some_nonempty s : s <> "" -> truthy (Some s) = true.
Proof.
  intros Hs. unfold truthy. destruct (String.eqb_spec s ""); [done|done].
Qed.

Lemma read_after_write e key x st :
  async_setItem_rejects e key = false ->
  async_getItem_rejects e key = false ->
  JSON_stringify x <> "" ->
  JSON_parse (JSON_stringify x) = Some x ->
  read_cached e key (write_cached e key x st) = x.
Proof.
  intros Hset Hget Hne Hrt.
  unfold read_cached, write_cached, AsyncStorage_getItem, AsyncStorage_setItem.
  rewrite Hset, Hget. simpl. rewrite lookup_insert_eq.
  by rewrite truthy_Some_nonempty, Hrt.
Qed.

Lemma read_unset e key st :
  async st !! key = None -> read_cached e key st = JNull.
Proof.
  intros Hk. unfold read_cached, AsyncStorage_getItem.
  destruct (async_getItem_rejects e key); [done|]. by rewrite Hk.
Qed.

Lemma read_corrupt e key raw st :
  async st !! key = Some raw -> JSON_parse raw = None ->
  read_cached e key st = JNull.
Proof.
  intros Hk Hp. unfold read_cached, AsyncStorage_getItem.
  destruct (async_getItem_rejects e key); [done|]. rewrite Hk.
  destruct (truthy (Some raw)); [|done]. by rewrite Hp.
Qed.

(** C7. Artifact-cache round trip and corruption-as-miss.  For both
    kinds and every resource id: after [set] (AsyncStorage accepting the
    write and the read, and the serialisation of [items] being a
    non-empty text that parses back to [items], as JSON.stringify and
    JSON.parse give for JSON data) [get] returns [items]; [get] on a key
    that holds nothing returns null; and [get] on a key whose raw text
    does not parse returns null.  [get] has no failing outcome at all:
    its result is a value, also when the read itself is rejected. *)
Theorem artifact_cache_round_trip
  (k : kind) (e : Env) (noteId : string) (items : json) (st : Storage) :
  (async_setItem_rejects e (key_of k noteId) = false ->
   async_getItem_rejects e (key_of k noteId) = false ->
   JSON_stringify items <> "" ->
   JSON_parse (JSON_stringify items) = Some items ->
   cache_get k e noteId (cache_set k e noteId items st) = items) /\
  (async st !! key_of k noteId = None -> cache_get k e noteId st = JNull) /\
  (forall raw, async st !! key_of k noteId = Some raw ->
     JSON_parse raw = None -> cache_get k e noteId st = JNull) /\
  (async_getItem_rejects e (key_of k noteId) = true ->
     cache_get k e noteId st = JNull).
Proof.
  rewrite !cache_get_read, cache_set_write. split_and!.
  - apply read_after_write.
  - apply read_unset.
  - intros raw. apply read_corrupt.
  - intros Hr. unfold read_cached, AsyncStorage_getItem. by rewrite Hr.
Qed.

(** *** Entries are independent *)

Lemma key_of_inj k k' id id' : key_of k id = key_of k' id' -> k = k' /\ id = id'.
Proof.
  destruct k, k'; unfold key_of, KEY_FC, KEY_QZ; simpl; intros H;
    simplify_eq; done.
Qed.

Lemma read_cached_ext e key st st' :
  async st !! key = async st' !! key -> read_cached e key st = read_cached e key st'.
Proof. intros H. unfold read_cached, AsyncStorage_getItem. by rewrite H. Qed.

(** Writing one entry leaves every other entry (the other kind of the
    same note, and both kinds of other notes) as it reads; writing an
    entry again replaces it, so the cache holds the last value written. *)
Theorem cache_set_is_keyed
  (k k' : kind) (e : Env) (id id' : string) (x x' : json) (st : Storage) :
  (k <> k' \/ id <> id' ->
   cache_get k' e id' (cache_set k e id x st) = cache_get k' e id' st) /\
  cache_set k e id x' (cache_set k e id x st) = cache_set k e id x' st.
Proof.
  rewrite !cache_get_read, !cache_set_write. split.
  - intros Hne. apply read_cached_ext. unfold write_cached, AsyncStorage_setItem.
    destruct (async_setItem_rejects e (key_of k id)); simpl; [done|].
    rewrite lookup_insert_ne; [done|].
    intros [-> ->]%key_of_inj. by destruct Hne.
  - unfold write_cached, AsyncStorage_setItem.
    destruct (async_setItem_rejects e (key_of k id)) eqn:Hr; simpl; rewrite ?Hr; simpl;
      [done|].
    apply storage_eq; simpl; [done|]. by rewrite insert_insert_eq.
Qed.

(** When AsyncStorage accepts the removal, [clearNoteTools] leaves no
    flashcards and no quiz for that note, and the entries of every other
    note are as before; the secure store is not touched. *)
Theorem clearNoteTools_clears_that_note_only
  (e : Env) (noteId : string) (st : Storage) :
  async_removeItem_rejects e (KEY_FC noteId) = false ->
  async_removeItem_rejects e (KEY_QZ noteId) = false ->
  (forall k, cache_get k e noteId (clearNoteTools e noteId st) = JNull) /\
  (forall k id', id' <> noteId ->
     cache_get k e id' (clearNoteTools e noteId st) = cache_get k e id' st) /\
  secure (clearNoteTools e noteId st) = secure st.
Proof.
  intros Hf Hq.
  assert (clearNoteTools e noteId st
          = set_async (delete (KEY_FC noteId) (delete (KEY_QZ noteId) (async st))) st)
    as ->.
  { unfold clearNoteTools, AsyncStorage_multiRemove. simpl. by rewrite Hf, Hq. }
  split_and!; [| |done].
  - intros k. rewrite cache_get_read. apply read_unset. simpl.
    destruct k; simpl.
    + apply lookup_delete_eq.
    + rewrite lookup_delete_ne, lookup_delete_eq; [done|].
      intros H. by apply (key_of_inj Flashcards Quiz) in H as [? _].
  - intros k id' Hne. rewrite !cache_get_read. apply read_cached_ext. simpl.
    rewrite !lookup_delete_ne; [done| |].
    + intros H. apply (key_of_inj Quiz k) in H as [_ ->]. done.
    + intros H. apply (key_of_inj Flashcards k) in H as [_ ->]. done.
Qed.

End WithJSON.

(** The fragment of JSON.stringify / JSON.parse on [null] and the empty
    array, enough to run the cache on a concrete input. *)
Definition stringify_fragment (j : json) : string :=
  match j with
  | JArr [] => "[]"
  | _ => "null"
  end.

Definition parse_fragment (s : string) : option json :=
  if String.eqb s "[]" then Some (JArr [])
  else if String.eqb s "null" then Some JNull
  else None.

Lemma artifact_cache_round_trip_witness :
  cache_get parse_fragment Flashcards web_env "n1"
    (cache_set stringify_fragment Flashcards web_env "n1" (JArr []) empty_storage)
  = JArr [] /\
  cache_get parse_fragment Quiz web_env "n1" empty_storage = JNull /\
  cache_get parse_fragment Quiz web_env "n1"
    {| secure := ∅; async := {[ KEY_QZ "n1" := "{oops" ]} |} = JNull.
Proof.
  pose proof (artifact_cache_round_trip parse_fragment stringify_fragment
                Flashcards web_env "n1" (JArr []) empty_storage) as (H1 & _).
  pose proof (artifact_cache_round_trip parse_fragment stringify_fragment
                Quiz web_env "n1" JNull empty_storage) as (_ & H2 & _).
  pose proof (artifact_cache_round_trip parse_fragment stringify_fragment
                Quiz web_env "n1" JNull
                {| secure := ∅; async := {[ KEY_QZ "n1" := "{oops" ]} |})
    as (_ & _ & H3 & _).
  split_and!.
  - apply H1; [reflexivity | reflexivity | discriminate | reflexivity].
  - apply H2. reflexivity.
  - apply (H3 "{oops"); reflexivity.
Defined.

Lemma cache_set_is_keyed_witness :
  cache_get parse_fragment Quiz web_env "n1"
    (cache_set stringify_fragment Flashcards web_env "n1" (JArr []) empty_storage)
  = cache_get parse_fragment Quiz web_env "n1" empty_storage.
Proof.
  apply (cache_set_is_keyed parse_fragment stringify_fragment Flashcards Quiz web_env
           "n1" "n1" (JArr []) JNull empty_storage).
  left. discriminate.
Defined.

Lemma clearNoteTools_clears_that_note_only_witness :
  cache_get parse_fragment Flashcards web_env "n1"
    (clearNoteTools web_env "n1"
       {| secure := ∅; async := {[ KEY_FC "n1" := "[]"; KEY_FC "n2" := "[]" ]} |}) = JNull /\
  cache_get parse_fragment Flashcards web_env "n2"
    (clearNoteTools web_env "n1"
       {| secure := ∅; async := {[ KEY_FC "n1" := "[]"; KEY_FC "n2" := "[]" ]} |}) = JArr [].
Proof.
  destruct (clearNoteTools_clears_that_note_only parse_fragment web_env "n1"
              {| secure := ∅; async := {[ KEY_FC "n1" := "[]"; KEY_FC "n2" := "[]" ]} |}
              eq_refl eq_refl) as (H1 & H2 & _).
  split; [apply H1|]. rewrite H2; [reflexivity|discriminate].
Defined.

End ToolsCache.

(** ** Event bus: lib/eventBus *)

Module EventBus.
Local Open Scope list_scope.

(** A callback is a function object; [indexOf] compares by identity, so a
    callback is named by a number.  What the callback does when called is
    given by [body]: the bus operations it performs, in order. *)
Definition handler := nat.

(** [{ noteId?: string }] *)
Definition payload := option string.

Inductive action :=
| Subscribe (ev : string) (h : handler)       (* on(ev, h) *)
| Unsubscribe (ev : string) (h : handler).    (* off(ev, h), or the closure [on] returned *)

(** [listeners] and the record of the calls made so far. *)
Record Bus := {
  listeners : gmap string (list handler);
  delivered : list (handler * payload)
}.

Definition empty_bus : Bus := {| listeners := ∅; delivered := [] |}.

Definition set_listeners (m : gmap string (list handler)) (b : Bus) : Bus :=
  {| listeners := m; delivered := delivered b |}.

(** [(listeners[event] ||= []).push(cb)] *)
Definition on (ev : string) (cb : handler) (b : Bus) : Bus :=
  set_listeners (<[ev := default [] (listeners b !! ev) ++ [cb]]> (listeners b)) b.

(** [arr.indexOf(cb)]: [None] is -1. *)
Fixpoint indexOf (cb : handler) (arr : list handler) : option nat :=
  match arr with
  | [] => None
  | x :: rest => if decide (x = cb) then Some 0%nat else S <$> indexOf cb rest
  end.

(** [arr.splice(i, 1)] *)
Definition splice1 (i : nat) (arr : list handler) : list handler :=
  take i arr ++ drop (S i) arr.

Definition off (ev : string) (cb : handler) (b : Bus) : Bus :=
  match listeners b !! ev with
  | None => b
  | Some arr =>
      match indexOf cb arr with
      | Some i => set_listeners (<[ev := splice1 i arr]> (listeners b)) b
      | None => b
      end
  end.

Section WithHandlers.

Variable body : handler -> payload -> list action.

Definition run_action (b : Bus) (a : action) : Bus :=
  match a with
  | Subscribe ev h => on ev h b
  | Unsubscribe ev h => off ev h b
  end.

(** [fn(payload)] *)
Definition invoke (fn : handler) (p : payload) (b : Bus) : Bus :=
  foldl run_action
    {| listeners := listeners b; delivered := delivered b ++ [(fn, p)] |}
    (body fn p).

(** [arr.forEach(f)]: the length is read once, before the first call;
    index [k] is visited when it is still inside the array at that time,
    and the element passed is the one then at [k].  [n] counts the indices
    left to visit. *)
Fixpoint forEach (n k : nat) (ev : string) (p : payload) (b : Bus) : Bus :=
  match n with
  | O => b
  | S n' =>
      let b' :=
        match default [] (listeners b !! ev) !! k with
        | Some fn => invoke fn p b
        | None => b
        end in
      forEach n' (S k) ev p b'
  end.

Definition emit (ev : string) (p : payload) (b : Bus) : Bus :=
  match listeners b !! ev with
  | None => b
  | Some arr => forEach (List.length arr) 0 ev p b
  end.

(** Callbacks that leave the bus alone. *)
Definition quiet (arr : list handler) (p : payload) : Prop :=
  Forall (fun h => body h p = []) arr.

Lemma invoke_quiet fn p b :
  body fn p = [] ->
  invoke fn p b = {| listeners := listeners b; delivered := delivered b ++ [(fn, p)] |}.
Proof. unfold invoke. by intros ->. Qed.

Lemma forEach_quiet arr ev p : quiet arr p ->
  forall n k b, listeners b !! ev = Some arr -> (k + n = List.length arr)%nat ->
  forEach n k ev p b =
  {| listeners := listeners b;
     delivered := delivered b ++ map (fun h => (h, p)) (drop k arr) |}.
Proof.
  intros Hq. induction n as [|n IH]; intros k b Harr Hlen; simpl.
  - rewrite drop_ge by lia. simpl. rewrite app_nil_r. by destruct b.
  - rewrite Harr. simpl.
    destruct (lookup_lt_is_Some_2 arr k) as [fn Hfn]; [lia|].
    rewrite Hfn, invoke_quiet.
    2:{ eapply (proj1 (Forall_lookup _ _) Hq); eauto. }
    rewrite IH; simpl; [|done|lia].
    rewrite (drop_S _ _ _ Hfn). simpl. by rewrite <- app_assoc.
Qed.

End WithHandlers.

(** Three subscribers; the first one unsubscribes itself when called (a
    one-shot listener), the others only receive. *)
Definition one_shot_first : handler -> payload -> list action :=
  fun h _ => if decide (h = 1%nat) then [Unsubscribe "notes:changed" 1%nat] else [].

Definition three_subscribers : Bus :=
  on "notes:changed" 3%nat (on "notes:changed" 2%nat (on "notes:changed" 1%nat empty_bus)).

(** Delivery when no callback touches the bus: every callback registered
    at the time of [emit] is called once, in registration order, with the
    payload; the registrations are as before. *)
Theorem emit_quiet_delivers_in_order
  (body : handler -> payload -> list action) (ev : string) (p : payload)
  (b : Bus) (arr : list handler) :
  listeners b !! ev = Some arr ->
  quiet body arr p ->
  emit body ev p b =
  {| listeners := listeners b;
     delivered := delivered b ++ map (fun h => (h, p)) arr |}.
Proof.
  intros Harr Hq. unfold emit. rewrite Harr.
  by rewrite (forEach_quiet body arr ev p Hq _ 0%nat b Harr eq_refl).
Qed.

Lemma emit_quiet_delivers_in_order_witness :
  delivered (emit (fun _ _ => []) "notes:changed" (Some "abc") three_subscribers)
  = [(1%nat, Some "abc"); (2%nat, Some "abc"); (3%nat, Some "abc")].
Proof.
  rewrite (emit_quiet_delivers_in_order (fun _ _ => []) "notes:changed"
             (Some "abc") three_subscribers [1%nat; 2%nat; 3%nat]).
  - reflexivity.
  - vm_compute. reflexivity.
  - unfold quiet. repeat constructor.
Defined.

(** C6 (the code departs from the claim).  Three callbacks are
    registered, in the order 1, 2, 3, and callback 1 unsubscribes itself
    when it is called.  One [emit] calls 1 and 3 only: callback 2, which
    was registered at the time of the publish and never unsubscribed, is
    not called in that dispatch, because [splice] moved it to the index
    [forEach] had already visited. *)
Theorem emit_skips_callback_after_unsubscribe :
  let b := emit one_shot_first "notes:changed" (Some "abc") three_subscribers in
  listeners three_subscribers !! "notes:changed" = Some [1%nat; 2%nat; 3%nat] /\
  delivered b = [(1%nat, Some "abc"); (3%nat, Some "abc")] /\
  listeners b !! "notes:changed" = Some [2%nat; 3%nat].
Proof. vm_compute. done. Qed.

(** *** Subscribing and unsubscribing *)

Lemma indexOf_first cb (l1 l2 : list handler) :
  cb ∉ l1 -> indexOf cb (l1 ++ cb :: l2) = Some (List.length l1).
Proof.
  induction l1 as [|x l1 IH]; simpl; intros Hn.
  - by rewrite decide_True.
  - apply not_elem_of_cons in Hn as [Hx Hn].
    rewrite decide_False by done. by rewrite IH.
Qed.

Lemma indexOf_absent cb (l : list handler) : cb ∉ l -> indexOf cb l = None.
Proof.
  induction l as [|x l IH]; simpl; [done|]. intros Hn.
  apply not_elem_of_cons in Hn as [Hx Hn].
  rewrite decide_False by done. by rewrite IH.
Qed.

Lemma splice1_middle (l1 l2 : list handler) cb :
  splice1 (List.length l1) (l1 ++ cb :: l2) = l1 ++ l2.
Proof.
  unfold splice1. rewrite take_app_length. rewrite drop_app_ge by lia.
  by replace (S (List.length l1) - List.length l1)%nat with 1%nat by lia.
Qed.

(** [off] removes one registration of the callback, the earliest one,
    and keeps every other registration in its place; the record of calls
    is untouched.  A callback that is not registered, or a topic nobody
    ever subscribed to, leaves the bus exactly as it was. *)
Theorem off_removes_earliest_registration
  (ev : string) (cb : handler) (b : Bus) :
  (forall l1 l2, listeners b !! ev = Some (l1 ++ cb :: l2) -> cb ∉ l1 ->
     off ev cb b = set_listeners (<[ev := l1 ++ l2]> (listeners b)) b) /\
  (forall arr, listeners b !! ev = Some arr -> cb ∉ arr -> off ev cb b = b) /\
  (listeners b !! ev = None -> off ev cb b = b).
Proof.
  split_and!.
  - intros l1 l2 Harr Hn. unfold off. rewrite Harr, indexOf_first by done.
    by rewrite splice1_middle.
  - intros arr Harr Hn. unfold off. by rewrite Harr, indexOf_absent.
  - intros Hnone. unfold off. by rewrite Hnone.
Qed.

Lemma on_lookup ev cb b :
  listeners (on ev cb b) !! ev = Some (default [] (listeners b !! ev) ++ [cb]).
Proof. unfold on. simpl. by rewrite lookup_insert_eq. Qed.

(** Subscribe, publish: the new callback is called once, after the
    earlier subscribers.  Subscribe, unsubscribe, publish: it is not
    called and the earlier subscribers are called as before.  (For
    callbacks that leave the bus alone while they run.) *)
Theorem subscribe_then_unsubscribe
  (body : handler -> payload -> list action) (ev : string) (p : payload)
  (cb : handler) (b : Bus) :
  let arr := default [] (listeners b !! ev) in
  cb ∉ arr -> quiet body arr p -> body cb p = [] ->
  delivered (emit body ev p (on ev cb b))
    = delivered b ++ map (fun h => (h, p)) arr ++ [(cb, p)] /\
  delivered (emit body ev p (off ev cb (on ev cb b)))
    = delivered b ++ map (fun h => (h, p)) arr.
Proof.
  simpl. intros Hn Hq Hcb. split.
  - assert (quiet body (default [] (listeners b !! ev) ++ [cb]) p) as Hq'.
    { apply Forall_app. split; [done|]. by constructor. }
    unfold emit. rewrite on_lookup.
    rewrite (forEach_quiet body _ ev p Hq' _ 0%nat _ (on_lookup ev cb b) eq_refl).
    simpl. rewrite drop_0. by rewrite map_app.
  - unfold off. rewrite on_lookup, indexOf_first, splice1_middle, app_nil_r by done.
    unfold emit. simpl. rewrite lookup_insert_eq.
    rewrite (forEach_quiet body _ ev p Hq _ 0%nat); simpl;
      [done|by rewrite lookup_insert_eq|done].
Qed.

Lemma subscribe_then_unsubscribe_witness :
  delivered (emit (fun _ _ => []) "notes:changed" (Some "abc")
               (on "notes:changed" 4%nat three_subscribers))
  = [(1%nat, Some "abc"); (2%nat, Some "abc"); (3%nat, Some "abc"); (4%nat, Some "abc")]
  /\
  delivered (emit (fun _ _ => []) "notes:changed" (Some "abc")
               (off "notes:changed" 4%nat (on "notes:changed" 4%nat three_subscribers)))
  = [(1%nat, Some "abc"); (2%nat, Some "abc"); (3%nat, Some "abc")].
Proof.
  apply (subscribe_then_unsubscribe (fun _ _ => []) "notes:changed" (Some "abc")
           4%nat three_subscribers).
  - vm_compute. intros H. repeat (apply elem_of_cons in H as [H|H]; [discriminate|]).
    by apply elem_of_nil in H.
  - vm_compute. repeat constructor.
  - reflexivity.
Defined.

(** *** Subscribing while an event is being delivered *)

Definition is_subscribe (a : action) : Prop :=
  match a with Subscribe _ _ => True | Unsubscribe _ _ => False end.

Lemma run_subscriptions (acts : list action) (ev : string) (b : Bus) cur :
  Forall is_subscribe acts ->
  listeners b !! ev = Some cur ->
  exists extra,
    listeners (foldl run_action b acts) !! ev = Some (cur ++ extra) /\
    delivered (foldl run_action b acts) = delivered b.
Proof.
  intros Hs. revert b cur.
  induction Hs as [|a acts Ha _ IH]; intros b cur Hcur; simpl.
  - exists []. by rewrite app_nil_r.
  - destruct a as [ev' h|]; [|done]. simpl.
    destruct (decide (ev' = ev)) as [->|Hne].
    + destruct (IH (on ev h b) (cur ++ [h])) as (extra & Hl & Hd).
      { by rewrite on_lookup, Hcur. }
      exists (h :: extra). by rewrite Hl, Hd, <- app_assoc.
    + destruct (IH (on ev' h b) cur) as (extra & Hl & Hd).
      { unfold on. simpl. by rewrite lookup_insert_ne. }
      exists extra. by rewrite Hl, Hd.
Qed.

Lemma forEach_subscriptions body (arr : list handler) ev p :
  (forall h, Forall is_subscribe (body h p)) ->
  forall n k b extra,
    listeners b !! ev = Some (arr ++ extra) -> (k + n = List.length arr)%nat ->
    exists extra',
      listeners (forEach body n k ev p b) !! ev = Some (arr ++ extra') /\
      delivered (forEach body n k ev p b)
        = delivered b ++ map (fun h => (h, p)) (drop k arr).
Proof.
  intros Hs. induction n as [|n IH]; intros k b extra Hl Hlen; simpl.
  - exists extra. rewrite drop_ge by lia. simpl. by rewrite app_nil_r.
  - rewrite Hl. simpl.
    destruct (lookup_lt_is_Some_2 arr k) as [fn Hfn]; [lia|].
    rewrite (lookup_app_l_Some _ _ _ _ Hfn).
    destruct (run_subscriptions (body fn p) ev
                {| listeners := listeners b; delivered := delivered b ++ [(fn, p)] |}
                (arr ++ extra) (Hs fn) Hl) as (e1 & Hl1 & Hd1).
    fold (invoke body fn p b) in Hl1, Hd1. rewrite <- app_assoc in Hl1.
    destruct (IH (S k) (invoke body fn p b) _ Hl1) as (e2 & Hl2 & Hd2); [lia|].
    exists e2. split; [done|]. rewrite Hd2, Hd1. simpl.
    rewrite (drop_S _ _ _ Hfn). simpl. by rewrite <- app_assoc.
Qed.

(** Callbacks that subscribe further callbacks while an event is being
    delivered: the dispatch calls the callbacks registered at the time
    of [emit], once each and in order, and none of the new ones, which
    are appended to the registrations for later events. *)
Theorem emit_does_not_call_new_subscribers
  (body : handler -> payload -> list action) (ev : string) (p : payload)
  (b : Bus) (arr : list handler) :
  listeners b !! ev = Some arr ->
  (forall h, Forall is_subscribe (body h p)) ->
  delivered (emit body ev p b) = delivered b ++ map (fun h => (h, p)) arr /\
  exists extra, listeners (emit body ev p b) !! ev = Some (arr ++ extra).
Proof.
  intros Harr Hs. unfold emit. rewrite Harr.
  destruct (forEach_subscriptions body arr ev p Hs (List.length arr) 0%nat b [])
    as (extra & Hl & Hd); [by rewrite app_nil_r|done|].
  split; [done|]. by exists extra.
Qed.

(** Every callback subscribes the callback numbered one hundred higher. *)
Definition chain_subscribers : handler -> payload -> list action :=
  fun h _ => [Subscribe "notes:changed" (h + 100)%nat].

Lemma emit_does_not_call_new_subscribers_witness :
  delivered (emit chain_subscribers "notes:changed" None three_subscribers)
  = [(1%nat, None); (2%nat, None); (3%nat, None)].
Proof.
  destruct (emit_does_not_call_new_subscribers chain_subscribers "notes:changed" None
              three_subscribers [1%nat; 2%nat; 3%nat]) as [Hd _].
  - vm_compute. reflexivity.
  - intros h. repeat constructor.
  - exact Hd.
Defined.

End EventBus.

(** ** Strings: [trim] and [toLowerCase] on Latin-1 text *)

Module JsString.

(** ECMAScript WhiteSpace and LineTerminator code units below 256:
    TAB, LF, VT, FF, CR, SP, NBSP. *)
Definition is_whitespace (c : ascii) : bool :=
  let n := nat_of_ascii c in
  bool_decide (n = 9 \/ n = 10 \/ n = 11 \/ n = 12 \/ n = 13 \/ n = 32 \/ n = 160)%nat.

(** A to Z, and the Latin-1 capitals U+00C0 to U+00DE without U+00D7. *)
Definition is_upper (c : ascii) : bool :=
  let n := nat_of_ascii c in
  bool_decide ((65 <= n <= 90) \/ (192 <= n <= 222 /\ n <> 215))%nat.

Definition lower (c : ascii) : ascii :=
  if is_upper c then ascii_of_nat (nat_of_ascii c + 32) else c.

Fixpoint toLowerCase (s : string) : string :=
  match s with
  | EmptyString => EmptyString
  | String c rest => String (lower c) (toLowerCase rest)
  end.

Fixpoint trimStart (s : string) : string :=
  match s with
  | EmptyString => EmptyString
  | String c rest => if is_whitespace c then trimStart rest else s
  end.

Fixpoint trimEnd (s : string) : string :=
  match s with
  | EmptyString => EmptyString
  | String c rest =>
      match trimEnd rest with
      | EmptyString => if is_whitespace c then EmptyString else String c EmptyString
      | rest' => String c rest'
      end
  end.

Definition trim (s : string) : string := trimEnd (trimStart s).





Lemma lower_idempotent c : lower (lower c) = lower c.
Proof.
  destruct c as [[] [] [] [] [] [] [] []]; vm_compute; reflexivity.
Qed.












End JsString.

(** ** Session coordinator and request gateway: providers/AuthProvider.tsx *)

Module Auth.
Import SecureStorage JsString.

(** *** Requests and responses *)

Record request := {
  url : string;
  method : option string;
  headers : gmap string string;      (* an object literal: later keys override *)
  body : option json                 (* the value whose JSON text is sent *)
}.

(** [RequestInit], the part the gateway reads and passes on. *)
Record RequestInit := {
  init_method : option string;
  init_headers : gmap string string;
  init_body : option json
}.

Record response := {
  status : Z;
  json_body : option json            (* [None]: [res.json()] rejects *)
}.

(** [res.ok] *)
Definition ok (res : response) : bool := (200 <=? status res) && (status res <=? 299).

(** [await res.json().catch(() => ({}))] *)
Definition json_or_empty (res : response) : json := default (JObj []) (json_body res).

(** A token read off a response body.  The backend contract gives tokens
    as strings; any other value is read as absent. *)
Definition token_field (k : string) (j : json) : option string :=
  match field k j with
  | Some (JStr s) => Some s
  | _ => None
  end.

(** *** The world the session layer runs in *)

Record World := {
  accessTokenMem : option string;
  refreshTokenMem : option string;
  refreshInFlight : option nat;          (* the pending promise, by number *)
  next_promise : nat;
  storage : Storage;
  server : list (result response);       (* the answers the network will give, in order *)
  sent : list request;                   (* the requests issued so far *)
  pending : nat -> result string;        (* how a refresh another caller started will settle *)
  user : option json;                    (* React state of the provider *)
  loading : bool
}.

Definition with_accessTokenMem (v : option string) (w : World) : World :=
  {| accessTokenMem := v; refreshTokenMem := refreshTokenMem w;
     refreshInFlight := refreshInFlight w; next_promise := next_promise w;
     storage := storage w; server := server w; sent := sent w;
     pending := pending w; user := user w; loading := loading w |}.
Definition with_refreshTokenMem (v : option string) (w : World) : World :=
  {| accessTokenMem := accessTokenMem w; refreshTokenMem := v;
     refreshInFlight := refreshInFlight w; next_promise := next_promise w;
     storage := storage w; server := server w; sent := sent w;
     pending := pending w; user := user w; loading := loading w |}.
Definition with_refreshInFlight (v : option nat) (w : World) : World :=
  {| accessTokenMem := accessTokenMem w; refreshTokenMem := refreshTokenMem w;
     refreshInFlight := v; next_promise := next_promise w;
     storage := storage w; server := server w; sent := sent w;
     pending := pending w; user := user w; loading := loading w |}.
Definition with_next_promise (v : nat) (w : World) : World :=
  {| accessTokenMem := accessTokenMem w; refreshTokenMem := refreshTokenMem w;
     refreshInFlight := refreshInFlight w; next_promise := v;
     storage := storage w; server := server w; sent := sent w;
     pending := pending w; user := user w; loading := loading w |}.
Definition with_storage (v : Storage) (w : World) : World :=
  {| accessTokenMem := accessTokenMem w; refreshTokenMem := refreshTokenMem w;
     refreshInFlight := refreshInFlight w; next_promise := next_promise w;
     storage := v; server := server w; sent := sent w;
     pending := pending w; user := user w; loading := loading w |}.
Definition with_network (sv : list (result response)) (sn : list request) (w : World)
  : World :=
  {| accessTokenMem := accessTokenMem w; refreshTokenMem := refreshTokenMem w;
     refreshInFlight := refreshInFlight w; next_promise := next_promise w;
     storage := storage w; server := sv; sent := sn;
     pending := pending w; user := user w; loading := loading w |}.
Definition with_user (v : option json) (w : World) : World :=
  {| accessTokenMem := accessTokenMem w; refreshTokenMem := refreshTokenMem w;
     refreshInFlight := refreshInFlight w; next_promise := next_promise w;
     storage := storage w; server := server w; sent := sent w;
     pending := pending w; user := v; loading := loading w |}.

(** *** Asynchronous code run by one caller: state and exceptions *)

Definition M (A : Type) : Type := World -> result A * World.

#[local] Instance M_ret : MRet M := fun A a w => (Ok a, w).
#[local] Instance M_bind : MBind M := fun A B f m w =>
  match m w with
  | (Ok a, w') => f a w'
  | (Throw x, w') => (Throw x, w')
  end.

Definition throw {A} (x : exn) : M A := fun w => (Throw x, w).
Definition gets {A} (f : World -> A) : M A := fun w => (Ok (f w), w).
Definition modify (f : World -> World) : M unit := fun w => (Ok tt, f w).

(** [await p] for a promise another caller's refresh will settle. *)
Definition await_pending (p : nat) : M string := fun w => (pending w p, w).

(** [try { m } catch { h }] *)
Definition try_catch {A} (m : M A) (h : exn -> M A) : M A := fun w =>
  match m w with
  | (Ok a, w') => (Ok a, w')
  | (Throw x, w') => h x w'
  end.

(** [try { m } finally { c }], for a [c] that cannot throw. *)
Definition try_finally {A} (m : M A) (c : World -> World) : M A := fun w =>
  let (r, w') := m w in (r, c w').

Ltac unfold_M :=
  unfold mbind, M_bind, mret, M_ret, throw, gets, modify, try_catch,
    try_finally, await_pending in *.

Section WithConfig.

Variable e : Env.
Variable API_BASE : string.               (* getApiBase() *)

Definition AUTH_BASE : string := API_BASE ++ "/api/auth".
Definition ACCESS_KEY : string := "accessToken".
Definition REFRESH_KEY : string := "refreshToken".

Definition getItemM (k : string) : M (option string) := fun w =>
  (getItem e k (storage w), w).
Definition setItemM (k v : string) : M unit := fun w =>
  let (r, st) := setItem e k v (storage w) in (r, with_storage st w).
Definition deleteItemM (k : string) : M unit := fun w =>
  let (r, st) := deleteItem e k (storage w) in (r, with_storage st w).

(** [await fetch(...)]: the request goes out, the next scripted answer
    comes back; with no answer left the network fails. *)
Definition fetch (rq : request) : M response := fun w =>
  match server w with
  | [] => (Throw NetworkError, with_network [] (sent w ++ [rq]) w)
  | a :: rest =>
      (a, with_network rest (sent w ++ [rq]) w)
  end.

Definition getTokens : M (option string * option string) :=
  a ← gets accessTokenMem;
  (if truthy a then mret tt
   else v ← getItemM ACCESS_KEY; modify (with_accessTokenMem v));;
  r ← gets refreshTokenMem;
  (if truthy r then mret tt
   else v ← getItemM REFRESH_KEY; modify (with_refreshTokenMem v));;
  a' ← gets accessTokenMem;
  r' ← gets refreshTokenMem;
  mret (a', r').

(** [if (x) await setItem(k, x); else await deleteItem(k);] on the stores. *)
Definition write_token (k : string) (x : option string) (st : Storage)
  : result unit * Storage :=
  match x with
  | Some s => if truthy x then setItem e k s st else deleteItem e k st
  | None => deleteItem e k st
  end.

Definition store_or_delete (k : string) (x : option string) : M unit := fun w =>
  let (r, st) := write_token k x (storage w) in (r, with_storage st w).

Definition setTokens (a r : option string) : M unit :=
  modify (with_accessTokenMem a);;
  modify (with_refreshTokenMem r);;
  store_or_delete ACCESS_KEY a;;
  store_or_delete REFRESH_KEY r.

Definition refresh_request (refreshToken : string) : request :=
  {| url := AUTH_BASE ++ "/refresh";
     method := Some "POST";
     headers := {[ "Content-Type" := "application/json" ]};
     body := Some (JObj [("refreshToken", JStr refreshToken)]) |}.

(** What the answer to the refresh request means:
    [if (!res.ok || !json?.accessToken) throw UNAUTHORIZED; else json.accessToken]. *)
Definition refresh_verdict (res : response) : result string :=
  let json := json_or_empty res in
  match token_field "accessToken" json with
  | Some a =>
      if ok res && truthy (Some a) then Ok a
      else Throw (HttpError "UNAUTHORIZED" 401 json)
  | None => Throw (HttpError "UNAUTHORIZED" 401 json)
  end.

(** The body of the [async () => { ... }] whose promise is
    [refreshInFlight]. *)
Definition refresh_body (refreshToken : string) : M string :=
  res ← fetch (refresh_request refreshToken);
  match refresh_verdict res with
  | Ok a =>
      setTokens (Some a) (Some refreshToken);;
      modify (with_refreshInFlight None);;
      mret a
  | Throw x =>
      setTokens None None;;
      modify (with_refreshInFlight None);;
      throw x
  end.

(** [refreshAccessToken], run by one caller with nothing else running.
    The async body is started before [refreshInFlight] is assigned, but
    it only issues its request before its first [await]; the assignment
    is written first here, the two do not interfere.  When a refresh is
    already in flight the caller receives that promise, whose outcome is
    [pending w p]. *)
Definition refreshAccessToken : M string :=
  '(_, refreshToken) ← getTokens;
  match refreshToken with
  | Some rt =>
      if truthy refreshToken then
        inflight ← gets refreshInFlight;
        match inflight with
        | Some p => await_pending p                 (* return refreshInFlight *)
        | None =>
            p ← gets next_promise;
            modify (with_next_promise (S p));;
            modify (with_refreshInFlight (Some p));;
            try_finally (refresh_body rt) (with_refreshInFlight None)
        end
      else throw (Error "No refresh token")
  | None => throw (Error "No refresh token")
  end.

(** The request [authFetch] builds: [{ ...init, headers }] with
    [headers = { "Content-Type": ..., ...init.headers, Authorization? }]. *)
Definition gateway_headers (init : RequestInit) (accessToken : option string)
  : gmap string string :=
  let base := init_headers init ∪ {[ "Content-Type" := "application/json" ]} in
  match accessToken with
  | Some a => if truthy accessToken then <["Authorization" := "Bearer " ++ a]> base else base
  | None => base
  end.

Definition gateway_request (path : string) (init : RequestInit)
  (hs : gmap string string) : request :=
  {| url := API_BASE ++ path; method := init_method init;
     headers := hs; body := init_body init |}.

Definition authFetch (path : string) (init : RequestInit) (retry : bool) : M json :=
  '(accessToken, _) ← getTokens;
  let headers := gateway_headers init accessToken in
  res ← fetch (gateway_request path init headers);
  if negb (status res =? 401) then
    let json := json_or_empty res in
    if negb (ok res) then throw (HttpError "Request failed" (status res) json)
    else mret json
  else if negb retry then
    throw (HttpError "UNAUTHORIZED" 401 (json_or_empty res))
  else
    newAccess ← refreshAccessToken;
    res2 ← fetch (gateway_request path init
                    (<["Authorization" := "Bearer " ++ newAccess]> headers));
    let json2 := json_or_empty res2 in
    if negb (ok res2) then throw (HttpError "Request failed" (status res2) json2)
    else mret json2.


Definition login_request (email password : string) : request :=
  {| url := AUTH_BASE ++ "/login";
     method := Some "POST";
     headers := {[ "Content-Type" := "application/json" ]};
     body := Some (JObj [("email", JStr email); ("password", JStr password)]) |}.

Record LoginData := { log_email : string; log_password : string }.


Definition apiLogin (d : LoginData) : M (option json) :=
  res ← fetch (login_request (toLowerCase (trim (log_email d))) (log_password d));
  let json := json_or_empty res in
  if negb (ok res) then throw (HttpError "LOGIN_FAILED" (status res) json)
  else
    setTokens (token_field "accessToken" json) (token_field "refreshToken" json);;
    mret (field "user" json).



(** *** The provider *)

Definition setUser (u : option json) : M unit := modify (with_user u).



Definition signIn (d : LoginData) : M unit :=
  u ← apiLogin d; setUser u.


Definition signOut : M unit :=
  setTokens None None;;
  setUser None.

Definition getAccessToken : M (option string) :=
  '(accessToken, _) ← getTokens;
  mret accessToken.

(** *** Frame lemmas *)

Lemma store_or_delete_frame k x w :
  let w' := snd (store_or_delete k x w) in
  accessTokenMem w' = accessTokenMem w /\ refreshTokenMem w' = refreshTokenMem w /\
  refreshInFlight w' = refreshInFlight w /\ next_promise w' = next_promise w /\
  server w' = server w /\ sent w' = sent w /\ pending w' = pending w /\
  user w' = user w /\ loading w' = loading w.
Proof.
  unfold store_or_delete. by destruct (write_token k x (storage w)).
Qed.

Lemma setTokens_frame a r w :
  let w' := snd (setTokens a r w) in
  accessTokenMem w' = a /\ refreshTokenMem w' = r /\
  refreshInFlight w' = refreshInFlight w /\ next_promise w' = next_promise w /\
  server w' = server w /\ sent w' = sent w /\ pending w' = pending w /\
  user w' = user w /\ loading w' = loading w.
Proof.
  unfold setTokens. unfold_M. simpl.
  set (w1 := with_refreshTokenMem r (with_accessTokenMem a w)).
  pose proof (store_or_delete_frame ACCESS_KEY a w1) as H1.
  destruct (store_or_delete ACCESS_KEY a w1) as [[[]|x] w2]; simpl in *.
  - pose proof (store_or_delete_frame REFRESH_KEY r w2) as H2.
    destruct (store_or_delete REFRESH_KEY r w2) as [r2 w3]; simpl in *.
    destruct_and!. split_and!; congruence.
  - destruct_and!. split_and!; congruence.
Qed.

Lemma write_token_throws k x st y :
  fst (write_token k x st) = Throw y -> y = StorageError.
Proof.
  unfold write_token.
  destruct x as [s|]; [destruct (truthy (Some s))|]; intros Hy.
  - by destruct (setItem_throws e k s st y Hy).
  - by destruct (deleteItem_throws e k st y Hy).
  - by destruct (deleteItem_throws e k st y Hy).
Qed.

Lemma store_or_delete_throws k x w y :
  fst (store_or_delete k x w) = Throw y -> y = StorageError.
Proof.
  unfold store_or_delete.
  pose proof (write_token_throws k x (storage w) y) as T.
  by destruct (write_token k x (storage w)).
Qed.

Lemma setTokens_throws a r w y :
  fst (setTokens a r w) = Throw y -> y = StorageError.
Proof.
  unfold setTokens. unfold_M. simpl.
  set (w1 := with_refreshTokenMem r (with_accessTokenMem a w)).
  pose proof (store_or_delete_throws ACCESS_KEY a w1 y) as H1.
  destruct (store_or_delete ACCESS_KEY a w1) as [[[]|x] w2]; simpl in *; [|done].
  apply store_or_delete_throws.
Qed.

Lemma getTokens_frame w :
  let w' := snd (getTokens w) in
  refreshInFlight w' = refreshInFlight w /\ next_promise w' = next_promise w /\
  storage w' = storage w /\ server w' = server w /\ sent w' = sent w /\
  pending w' = pending w /\ user w' = user w /\ loading w' = loading w.
Proof.
  unfold getTokens, getItemM. unfold_M. simpl.
  repeat (case_match; simplify_eq /=); done.
Qed.

(** *** Sign-in and sign-up *)




(** *** Sign-out *)

(** Whether [deleteItem k] is served by the secure store. *)
Definition delete_served_by_secure (k : string) : bool :=
  match getSecureStore e with
  | Some m => has_deleteItemAsync m && negb (deleteItemAsync_rejects m k)
  | None => false
  end.

Lemma deleteItem_cases k st :
  deleteItem e k st =
  if delete_served_by_secure k
  then (Ok tt, set_secure (delete k (secure st)) st)
  else AsyncStorage_removeItem e k st.
Proof.
  unfold deleteItem, delete_served_by_secure, SecureStore_deleteItemAsync.
  destruct (OS e) eqn:Hos.
  - by rewrite (web_has_no_secure_store e Hos).
  - destruct (getSecureStore e) as [m|]; [|done].
    by destruct (has_deleteItemAsync m && negb (deleteItemAsync_rejects m k)).
Qed.

(** The key is gone from the store that served the delete. *)
Definition removed (k : string) (st : Storage) : Prop :=
  if delete_served_by_secure k then secure st !! k = None else async st !! k = None.

Lemma world_eq w1 w2 :
  accessTokenMem w1 = accessTokenMem w2 -> refreshTokenMem w1 = refreshTokenMem w2 ->
  refreshInFlight w1 = refreshInFlight w2 -> next_promise w1 = next_promise w2 ->
  storage w1 = storage w2 -> server w1 = server w2 -> sent w1 = sent w2 ->
  pending w1 = pending w2 -> user w1 = user w2 -> loading w1 = loading w2 ->
  w1 = w2.
Proof. destruct w1, w2; simpl; congruence. Qed.

Lemma signOut_memory w :
  accessTokenMem (snd (signOut w)) = None /\ refreshTokenMem (snd (signOut w)) = None.
Proof.
  unfold signOut, setUser. unfold_M.
  pose proof (setTokens_frame None None w) as F.
  destruct (setTokens None None w) as [[[]|x] w1]; simpl in *; tauto.
Qed.

Lemma signOut_cases w :
  signOut w =
  let w0 := with_refreshTokenMem None (with_accessTokenMem None w) in
  match deleteItem e ACCESS_KEY (storage w) with
  | (Throw x, st1) => (Throw x, with_storage st1 w0)
  | (Ok _, st1) =>
      match deleteItem e REFRESH_KEY st1 with
      | (Throw x, st2) => (Throw x, with_storage st2 w0)
      | (Ok _, st2) => (Ok tt, with_user None (with_storage st2 w0))
      end
  end.
Proof.
  unfold signOut, setTokens, setUser, store_or_delete, write_token. unfold_M. simpl.
  destruct (deleteItem e ACCESS_KEY (storage w)) as [[[]|x] st1]; simpl; [|done].
  destruct (deleteItem e REFRESH_KEY st1) as [[[]|x] st2]; simpl; done.
Qed.

(** C5 (as the code has it).  [signOut] always clears both in-memory
    credentials, before it touches storage.  When AsyncStorage rejects
    neither delete, [signOut] does not raise, the profile is cleared and
    each credential key is gone from the store that served its delete.
    A raise can only be AsyncStorage's rejection, and then the profile
    is left as it was.  Calling [signOut] again gives the same outcome
    and changes nothing further. *)
Theorem signOut_clears_memory_then_storage (w : World) :
  let r := fst (signOut w) in
  let w' := snd (signOut w) in
  accessTokenMem w' = None /\ refreshTokenMem w' = None /\
  (async_removeItem_rejects e ACCESS_KEY = false ->
   async_removeItem_rejects e REFRESH_KEY = false ->
   r = Ok tt) /\
  (r = Ok tt ->
   user w' = None /\ removed ACCESS_KEY (storage w') /\ removed REFRESH_KEY (storage w')) /\
  (forall x, r = Throw x -> x = StorageError /\ user w' = user w) /\
  signOut w' = signOut w.
Proof.
  simpl. split; [apply signOut_memory|]. split; [apply signOut_memory|].
  rewrite !signOut_cases. simpl. rewrite !deleteItem_cases. unfold removed.
  unfold AsyncStorage_removeItem.
  destruct (delete_served_by_secure ACCESS_KEY) eqn:Ha,
    (delete_served_by_secure REFRESH_KEY) eqn:Hr,
    (async_removeItem_rejects e ACCESS_KEY) eqn:Ea,
    (async_removeItem_rejects e REFRESH_KEY) eqn:Er; simpl.
  all: rewrite ?deleteItem_cases, ?Ha, ?Hr; unfold AsyncStorage_removeItem;
    rewrite ?Ea, ?Er; simpl.
  all: split_and!;
    [ by intros
    | intros Hok;
      first [ discriminate Hok
            | split_and!; unfold ACCESS_KEY, REFRESH_KEY; by simplify_map_eq ]
    | intros x [=]; by subst
    | f_equal; apply world_eq; simpl; try done;
      apply storage_eq; simpl; try done;
      apply map_eq; intros k; rewrite !lookup_delete; by repeat case_decide ].
Qed.

(** *** Refresh *)


Lemma getTokens_from_memory w a rt :
  accessTokenMem w = a -> refreshTokenMem w = rt ->
  truthy a = true -> truthy rt = true ->
  getTokens w = (Ok (a, rt), w).
Proof.
  intros <- <- Ha Hr. unfold getTokens. unfold_M. simpl.
  by rewrite Ha, Hr.
Qed.





(** *** The gateway *)




(** *** Bootstrap *)


(** The second attempt of the gateway, once the refresh gave [newAccess]. *)
Definition retry_attempt (path : string) (init : RequestInit) (a : option string)
  (newAccess : string) : M json :=
  res2 ← fetch (gateway_request path init
                  (<["Authorization" := "Bearer " ++ newAccess]> (gateway_headers init a)));
  let json2 := json_or_empty res2 in
  if negb (ok res2) then throw (HttpError "Request failed" (status res2) json2)
  else mret json2.

Lemma authFetch_answered path init retry w w0 a rt res rest :
  getTokens w = (Ok (a, rt), w0) ->
  server w = Ok res :: rest ->
  authFetch path init retry w =
  let w1 := with_network rest
              (sent w0 ++ [gateway_request path init (gateway_headers init a)]) w0 in
  if status res =? 401 then
    if retry then
      match refreshAccessToken w1 with
      | (Ok newAccess, w2) => retry_attempt path init a newAccess w2
      | (Throw x, w2) => (Throw x, w2)
      end
    else (Throw (HttpError "UNAUTHORIZED" 401 (json_or_empty res)), w1)
  else
    (if ok res then Ok (json_or_empty res)
     else Throw (HttpError "Request failed" (status res) (json_or_empty res)), w1).
Proof.
  intros Hg Hsv.
  pose proof (getTokens_frame w) as F. rewrite Hg in F. simpl in F.
  destruct F as (Fm & Fn & Fst & Fsv & Fsn & _).
  unfold authFetch. unfold mbind at 1, M_bind at 1.
  rewrite Hg. cbn beta iota. unfold mbind at 1, M_bind at 1. unfold fetch at 1.
  rewrite Fsv, Hsv. simpl.
  destruct (status res =? 401); simpl.
  - destruct retry; simpl; [|done]. unfold mbind at 1, M_bind at 1.
    by destruct (refreshAccessToken _) as [[n|x] w2].
  - by destruct (ok res).
Qed.




(** *** Reading the credentials *)

(** [if (!mem) mem = await getItem(key)], as the value [mem] ends with. *)
Definition read_through (mem : option string) (k : string) (w : World)
  : result (option string) :=
  if truthy mem then Ok mem else getItem e k (storage w).

Lemma getTokens_cases w :
  getTokens w =
  match read_through (accessTokenMem w) ACCESS_KEY w with
  | Throw x => (Throw x, w)
  | Ok a =>
      match read_through (refreshTokenMem w) REFRESH_KEY w with
      | Throw x => (Throw x, with_accessTokenMem a w)
      | Ok r => (Ok (a, r), with_refreshTokenMem r (with_accessTokenMem a w))
      end
  end.
Proof.
  unfold getTokens, getItemM, read_through. unfold_M. simpl.
  destruct (truthy (accessTokenMem w)) eqn:Ta; simpl.
  - destruct (truthy (refreshTokenMem w)) eqn:Tr; simpl.
    + f_equal. by apply world_eq.
    + destruct (getItem e REFRESH_KEY (storage w)); simpl; f_equal; by apply world_eq.
  - destruct (getItem e ACCESS_KEY (storage w)) as [va|x]; simpl; [|done].
    destruct (truthy (refreshTokenMem w)) eqn:Tr; simpl.
    + f_equal.
    + by destruct (getItem e REFRESH_KEY (storage w)).
Qed.

(** [getTokens] is a read-through cache with a stable answer: once it
    has returned a pair, calling it again returns the same pair and
    changes nothing; and it never writes to storage, never uses the
    network and never touches the in-flight marker or the profile. *)
Theorem getTokens_is_stable (w w0 : World) (a rt : option string) :
  getTokens w = (Ok (a, rt), w0) ->
  getTokens w0 = (Ok (a, rt), w0) /\
  storage w0 = storage w /\ sent w0 = sent w /\ server w0 = server w /\
  refreshInFlight w0 = refreshInFlight w /\ user w0 = user w.
Proof.
  intros Hg. pose proof (getTokens_frame w) as F. rewrite Hg in F. simpl in F.
  destruct F as (Fm & Fn & Fst & Fsv & Fsn & Fp & Fu & Fl).
  split; [|done].
  rewrite getTokens_cases in Hg. rewrite getTokens_cases.
  destruct (read_through _ _ w) as [a'|x] eqn:Ra; [|done].
  destruct (read_through _ _ w) as [r'|x] eqn:Rr in Hg; [|done].
  injection Hg as <- <- <-. simpl.
  assert (read_through (accessTokenMem w) ACCESS_KEY w = Ok a' ->
          (if truthy a' then Ok a' else getItem e ACCESS_KEY (storage w)) = Ok a') as Ha.
  { unfold read_through. destruct (truthy (accessTokenMem w)) eqn:T.
    - intros [= <-]. by rewrite T.
    - intros ->. by destruct (truthy a'). }
  assert (read_through (refreshTokenMem w) REFRESH_KEY w = Ok r' ->
          (if truthy r' then Ok r' else getItem e REFRESH_KEY (storage w)) = Ok r') as Hr.
  { unfold read_through. destruct (truthy (refreshTokenMem w)) eqn:T.
    - intros [= <-]. by rewrite T.
    - intros ->. by destruct (truthy r'). }
  unfold read_through. simpl. by rewrite (Ha Ra), (Hr Rr).
Qed.

(** [getAccessToken] only reads: it issues no request, starts no
    refresh and leaves storage and the profile alone; with a non-empty
    access token in memory it returns that token. *)
Theorem getAccessToken_only_reads (w : World) :
  let w' := snd (getAccessToken w) in
  sent w' = sent w /\ server w' = server w /\ storage w' = storage w /\
  refreshInFlight w' = refreshInFlight w /\ user w' = user w /\
  (truthy (accessTokenMem w) = true ->
   fst (getAccessToken w) = Ok (accessTokenMem w) \/
   exists x, fst (getAccessToken w) = Throw x /\ truthy (refreshTokenMem w) = false).
Proof.
  simpl. pose proof (getTokens_frame w) as F.
  assert (getAccessToken w =
          match getTokens w with
          | (Ok (a, _), w0) => (Ok a, w0)
          | (Throw x, w0) => (Throw x, w0)
          end) as ->.
  { unfold getAccessToken. unfold_M. by destruct (getTokens w) as [[[a rt]|x] w0]. }
  pose proof (getTokens_cases w) as C.
  destruct (getTokens w) as [[[a rt]|x] w0] eqn:Hg; simpl in *;
    destruct F as (Fm & Fn & Fst & Fsv & Fsn & Fp & Fu & Fl); split_and!; try done.
  - intros Ta. left. f_equal. revert C. unfold read_through. rewrite Ta.
    destruct (if truthy (refreshTokenMem w) then _ else _); by intros [= -> _].
  - intros Ta. right. exists x. split; [done|]. revert C. unfold read_through.
    rewrite Ta. by destruct (truthy (refreshTokenMem w)).
Qed.

(** *** The gateway's requests *)

(** The headers the gateway sends: the stored access token, when there
    is one, is the [Authorization] header whatever the caller passed
    under that name; the caller's headers override the default
    [Content-Type]; and the retry differs from the first attempt in the
    [Authorization] header only. *)
Theorem gateway_request_headers
  (path : string) (init : RequestInit) (a : option string) (newAccess : string) :
  let rq := gateway_request path init (gateway_headers init a) in
  let rq2 := gateway_request path init
               (<["Authorization" := ("Bearer " ++ newAccess)%string]>
                  (gateway_headers init a)) in
  (forall tok, a = Some tok -> truthy a = true ->
     headers rq !! "Authorization" = Some ("Bearer " ++ tok)%string) /\
  (truthy a = false ->
     headers rq !! "Authorization" = init_headers init !! "Authorization") /\
  headers rq !! "Content-Type"
    = Some (default "application/json" (init_headers init !! "Content-Type")) /\
  url rq2 = url rq /\ method rq2 = method rq /\ body rq2 = body rq /\
  headers rq2 !! "Authorization" = Some ("Bearer " ++ newAccess)%string /\
  (forall k, k <> "Authorization" -> headers rq2 !! k = headers rq !! k).
Proof.
  simpl. unfold gateway_headers. split_and!; try done.
  - intros tok -> Ht. rewrite Ht. by rewrite lookup_insert_eq.
  - intros Ht. destruct a as [tok|]; rewrite ?Ht;
      rewrite lookup_union_l; done.
  - assert ((init_headers init ∪ {["Content-Type" := "application/json"]})
              !! "Content-Type"
            = Some (default "application/json" (init_headers init !! "Content-Type")))
      as H.
    { rewrite lookup_union.
      destruct (init_headers init !! "Content-Type"); by rewrite ?lookup_singleton_eq. }
    destruct a as [tok|]; [destruct (truthy (Some tok))|]; try done.
    by rewrite lookup_insert_ne.
  - by rewrite lookup_insert_eq.
  - intros k Hk. by rewrite lookup_insert_ne.
Qed.

(** Called with [retry = false], the gateway never refreshes: a 401
    answer is raised as UNAUTHORIZED with the parsed body, after that
    one request. *)
Theorem authFetch_without_retry
  (path : string) (init : RequestInit) (w w0 : World) (a rt : option string)
  (res : response) (rest : list (result response)) :
  getTokens w = (Ok (a, rt), w0) ->
  server w = Ok res :: rest ->
  status res = 401 ->
  authFetch path init false w =
  (Throw (HttpError "UNAUTHORIZED" 401 (json_or_empty res)),
   with_network rest
     (sent w0 ++ [gateway_request path init (gateway_headers init a)]) w0).
Proof.
  intros Hg Hsv H401.
  rewrite (authFetch_answered _ _ _ _ _ _ _ _ _ Hg Hsv). simpl.
  by rewrite H401.
Qed.

(** *** Signing in, and finding the session again *)

Lemma setTokens_cases a r w :
  setTokens a r w =
  let w0 := with_refreshTokenMem r (with_accessTokenMem a w) in
  match write_token ACCESS_KEY a (storage w) with
  | (Throw x, st1) => (Throw x, with_storage st1 w0)
  | (Ok _, st1) =>
      match write_token REFRESH_KEY r st1 with
      | (Throw x, st2) => (Throw x, with_storage st2 w0)
      | (Ok _, st2) => (Ok tt, with_storage st2 w0)
      end
  end.
Proof.
  unfold setTokens, store_or_delete. unfold_M. simpl.
  destruct (write_token ACCESS_KEY a (storage w)) as [[[]|x] st1]; simpl; [|done].
  by destruct (write_token REFRESH_KEY r st1) as [[[]|x] st2].
Qed.

(** [signIn] against an answering backend.  On a non-2xx answer it
    raises LOGIN_FAILED carrying the status and the parsed body as
    received, and nothing but the network has changed: credentials and
    profile are as before.  On a 2xx answer the in-memory credentials
    are the tokens of the answer, and the profile is its [user] field
    unless storage rejected a write, in which case the call raises that
    rejection and the profile is left as it was. *)
Theorem signIn_outcome
  (d : LoginData) (w : World) (res : response) (rest : list (result response)) :
  server w = Ok res :: rest ->
  let rq := login_request (toLowerCase (trim (log_email d))) (log_password d) in
  let json := json_or_empty res in
  let r := fst (signIn d w) in
  let w' := snd (signIn d w) in
  if ok res then
    accessTokenMem w' = token_field "accessToken" json /\
    refreshTokenMem w' = token_field "refreshToken" json /\
    ((r = Ok tt /\ user w' = field "user" json) \/
     (r = Throw StorageError /\ user w' = user w))
  else
    r = Throw (HttpError "LOGIN_FAILED" (status res) json) /\
    w' = with_network rest (sent w ++ [rq]) w.
Proof.
  intros Hsv. simpl. unfold signIn, apiLogin, setUser, fetch. unfold_M.
  rewrite Hsv. simpl. destruct (ok res); simpl; [|done].
  match goal with |- context [setTokens ?a ?r ?w0] =>
    pose proof (setTokens_frame a r w0) as F;
    pose proof (setTokens_throws a r w0) as T;
    destruct (setTokens a r w0) as [[[]|x] w1]
  end; simpl in *; destruct F as (F1 & F2 & _ & _ & _ & _ & _ & F8 & _).
  - split_and!; [done|done|]. by left.
  - rewrite (T x eq_refl). split_and!; [done|done|]. by right.
Qed.

(** The process restarts: the module variables are [null] again, storage
    is what it was. *)
Definition restart (w : World) : World :=
  with_refreshInFlight None (with_refreshTokenMem None (with_accessTokenMem None w)).

Definition same_store_reads (k : string) : Prop :=
  secure_serves_set e k = secure_serves_get e k /\
  (secure_serves_get e k = false -> async_getItem_rejects e k = false).

(** Credentials written by [setTokens] are read back by [getTokens]:
    at once from memory, whatever storage did; and, when the writes were
    accepted, also after a restart, from storage, provided each key is
    read from the store that served its write. *)
Theorem setTokens_then_getTokens (a r : string) (w : World) :
  truthy (Some a) = true -> truthy (Some r) = true ->
  let w' := snd (setTokens (Some a) (Some r) w) in
  getTokens w' = (Ok (Some a, Some r), w') /\
  (fst (setTokens (Some a) (Some r) w) = Ok tt ->
   same_store_reads ACCESS_KEY -> same_store_reads REFRESH_KEY ->
   fst (getTokens (restart w')) = Ok (Some a, Some r)).
Proof.
  intros Ta Tr. simpl.
  pose proof (setTokens_frame (Some a) (Some r) w) as F. simpl in F.
  destruct F as (F1 & F2 & _).
  split; [by apply getTokens_from_memory|].
  rewrite setTokens_cases. simpl. unfold write_token. rewrite Ta, Tr.
  intros Hok [Sa Ga] [Sr Gr].
  rewrite getTokens_cases. unfold read_through. simpl.
  rewrite !getItem_cases. unfold AsyncStorage_getItem.
  rewrite <- Sa, <- Sr. revert Hok.
  rewrite setItem_cases. unfold AsyncStorage_setItem.
  destruct (secure_serves_set e ACCESS_KEY) eqn:Ea; simpl.
  - rewrite setItem_cases. unfold AsyncStorage_setItem.
    destruct (secure_serves_set e REFRESH_KEY) eqn:Er; simpl.
    + intros _. unfold ACCESS_KEY, REFRESH_KEY. by simplify_map_eq.
    + destruct (async_setItem_rejects e REFRESH_KEY); [done|]. simpl. intros _.
      rewrite Gr by done. unfold ACCESS_KEY, REFRESH_KEY. by simplify_map_eq.
  - destruct (async_setItem_rejects e ACCESS_KEY); [done|]. simpl.
    rewrite setItem_cases. unfold AsyncStorage_setItem.
    destruct (secure_serves_set e REFRESH_KEY) eqn:Er; simpl.
    + intros _. rewrite Ga by done. unfold ACCESS_KEY, REFRESH_KEY.
      by simplify_map_eq.
    + destruct (async_setItem_rejects e REFRESH_KEY); [done|]. simpl. intros _.
      rewrite Ga, Gr by done. simpl. unfold ACCESS_KEY, REFRESH_KEY.
      by simplify_map_eq.
Qed.

(** *** Reading the credentials after sign-out *)

(** A read of [k] is answered: by the secure store, or by AsyncStorage
    when the secure store does not serve it. *)
Definition read_answers (k : string) : Prop :=
  secure_serves_get e k = false -> async_getItem_rejects e k = false.

Lemma getAccessToken_cases w :
  getAccessToken w =
  match getTokens w with
  | (Ok (a, _), w0) => (Ok a, w0)
  | (Throw x, w0) => (Throw x, w0)
  end.
Proof. unfold getAccessToken. unfold_M. by destruct (getTokens w) as [[[a rt]|x] w0]. Qed.

(** After a [signOut] that did not raise, the next [getAccessToken]
    goes to storage.  It returns [null] when the store that serves the
    read of the access credential is the store that served its delete.
    When the secure store refused the delete (so that AsyncStorage
    served it) but answers the read, the access credential the secure
    store held before the sign-out is returned: it survived the
    sign-out. *)
Theorem signOut_then_getAccessToken (w : World) :
  fst (signOut w) = Ok tt ->
  read_answers ACCESS_KEY -> read_answers REFRESH_KEY ->
  let w' := snd (signOut w) in
  (delete_served_by_secure ACCESS_KEY = secure_serves_get e ACCESS_KEY ->
   fst (getAccessToken w') = Ok None) /\
  (forall t, delete_served_by_secure ACCESS_KEY = false ->
     secure_serves_get e ACCESS_KEY = true ->
     secure (storage w) !! ACCESS_KEY = Some t ->
     fst (getAccessToken w') = Ok (Some t)).
Proof.
  intros Hok Ra Rr. simpl. revert Hok.
  rewrite signOut_cases. cbv zeta. rewrite !deleteItem_cases.
  unfold AsyncStorage_removeItem.
  assert (forall st a, accessTokenMem a = None -> refreshTokenMem a = None ->
            storage a = st ->
            fst (getAccessToken a) =
            match (if secure_serves_get e ACCESS_KEY then Ok (secure st !! ACCESS_KEY)
                   else Ok (async st !! ACCESS_KEY)) with
            | Ok v => Ok v
            | Throw x => Throw x
            end) as Hread.
  { intros st a Ma Mr <-. rewrite getAccessToken_cases, getTokens_cases.
    unfold read_through. rewrite Ma, Mr. simpl.
    rewrite !getItem_cases. unfold AsyncStorage_getItem.
    destruct (secure_serves_get e ACCESS_KEY) eqn:Ga; simpl.
    - destruct (secure_serves_get e REFRESH_KEY) eqn:Gr; simpl; [done|].
      by rewrite Rr.
    - rewrite Ra by done. simpl.
      destruct (secure_serves_get e REFRESH_KEY) eqn:Gr; simpl; [done|].
      by rewrite Rr. }
  destruct (delete_served_by_secure ACCESS_KEY) eqn:Da; simpl.
  - rewrite deleteItem_cases. unfold AsyncStorage_removeItem.
    destruct (delete_served_by_secure REFRESH_KEY) eqn:Dr; simpl.
    + intros _. split; [|done]. intros Hs.
      erewrite Hread by reflexivity. rewrite <- Hs. simpl.
      unfold ACCESS_KEY, REFRESH_KEY. by simplify_map_eq.
    + destruct (async_removeItem_rejects e REFRESH_KEY); [done|]. simpl.
      intros _. split; [|done]. intros Hs.
      erewrite Hread by reflexivity. rewrite <- Hs. simpl.
      unfold ACCESS_KEY, REFRESH_KEY. by simplify_map_eq.
  - destruct (async_removeItem_rejects e ACCESS_KEY); [done|]. simpl.
    rewrite deleteItem_cases. unfold AsyncStorage_removeItem.
    destruct (delete_served_by_secure REFRESH_KEY) eqn:Dr; simpl.
    + intros _. split.
      * intros Hs. erewrite Hread by reflexivity. rewrite <- Hs. simpl.
        unfold ACCESS_KEY, REFRESH_KEY. by simplify_map_eq.
      * intros t _ Ga Ht. erewrite Hread by reflexivity. rewrite Ga. simpl.
        unfold ACCESS_KEY, REFRESH_KEY in *. by simplify_map_eq.
    + destruct (async_removeItem_rejects e REFRESH_KEY); [done|]. simpl.
      intros _. split.
      * intros Hs. erewrite Hread by reflexivity. rewrite <- Hs. simpl.
        unfold ACCESS_KEY, REFRESH_KEY. by simplify_map_eq.
      * intros t _ Ga Ht. erewrite Hread by reflexivity. rewrite Ga. simpl.
        by rewrite Ht.
Qed.

End WithConfig.


Definition fresh_world (st : Storage) (answers : list (result response)) : World :=
  {| accessTokenMem := None; refreshTokenMem := None; refreshInFlight := None;
     next_promise := 0; storage := st; server := answers; sent := [];
     pending := fun _ => Throw NetworkError; user := None; loading := true |}.

(** Concrete worlds and answers. *)

Definition unauthorized : response := {| status := 401; json_body := None |}.

(** The refresh endpoint answers with a new access token, and here also
    with a rotated refresh token. *)
Definition refresh_ok : response :=
  {| status := 200;
     json_body := Some (JObj [("accessToken", JStr "a2"); ("refreshToken", JStr "r2")]) |}.


Definition both_tokens : Storage :=
  {| secure := ∅; async := {[ "accessToken" := "a1"; "refreshToken" := "r1" ]} |}.

(** A signed-in session whose tokens are in memory and in AsyncStorage. *)
Definition signed_in_world (answers : list (result response)) : World :=
  {| accessTokenMem := Some "a1"; refreshTokenMem := Some "r1"; refreshInFlight := None;
     next_promise := 0; storage := both_tokens; server := answers; sent := [];
     pending := fun _ => Throw NetworkError;
     user := Some (JObj [("id", JStr "u1")]); loading := false |}.



(** A browser whose storage rejects every removal. *)
Definition rejecting_web_env : Env :=
  {| OS := Web; secure_import := None;
     async_getItem_rejects := fun _ => false;
     async_setItem_rejects := fun _ => false;
     async_removeItem_rejects := fun _ => true |}.

Definition notes_init : RequestInit :=
  {| init_method := Some "GET"; init_headers := ∅; init_body := None |}.





(** C5, the claim as stated fails: when storage rejects the removal,
    [signOut] raises and the profile is still set. *)
Lemma signOut_raises_when_storage_rejects :
  let run := signOut rejecting_web_env (signed_in_world []) in
  fst run = Throw StorageError /\
  user (snd run) = Some (JObj [("id", JStr "u1")]) /\
  async (storage (snd run)) !! "refreshToken" = Some "r1".
Proof. vm_compute. done. Qed.

Lemma signOut_clears_memory_then_storage_witness :
  let run := signOut web_env (signed_in_world []) in
  fst run = Ok tt /\ user (snd run) = None /\
  accessTokenMem (snd run) = None /\ refreshTokenMem (snd run) = None /\
  async (storage (snd run)) !! "accessToken" = None /\
  async (storage (snd run)) !! "refreshToken" = None.
Proof.
  pose proof (signOut_clears_memory_then_storage web_env (signed_in_world []))
    as (Ha & Hr & Hok & Hst & _).
  specialize (Hok eq_refl eq_refl). destruct (Hst Hok) as (Hu & Hka & Hkr).
  by repeat split.
Defined.

Lemma getTokens_is_stable_witness :
  let w := fresh_world both_tokens [] in
  let w0 := snd (getTokens web_env w) in
  getTokens web_env w0 = (Ok (Some "a1", Some "r1"), w0) /\ storage w0 = storage w.
Proof.
  destruct (getTokens_is_stable web_env (fresh_world both_tokens [])
              (snd (getTokens web_env (fresh_world both_tokens [])))
              (Some "a1") (Some "r1") eq_refl) as (H & Hst & _).
  split; [exact H|exact Hst].
Defined.

Lemma authFetch_without_retry_witness :
  fst (authFetch web_env "http://h" "/api/notes" notes_init false
         (signed_in_world [Ok unauthorized; Ok refresh_ok]))
  = Throw (HttpError "UNAUTHORIZED" 401 (JObj [])) /\
  server (snd (authFetch web_env "http://h" "/api/notes" notes_init false
                 (signed_in_world [Ok unauthorized; Ok refresh_ok])))
  = [Ok refresh_ok].
Proof.
  rewrite (authFetch_without_retry web_env "http://h" "/api/notes" notes_init
             (signed_in_world [Ok unauthorized; Ok refresh_ok])
             (signed_in_world [Ok unauthorized; Ok refresh_ok])
             (Some "a1") (Some "r1") unauthorized [Ok refresh_ok]
             eq_refl eq_refl eq_refl).
  split; reflexivity.
Defined.

Definition login_rejected : response :=
  {| status := 401; json_body := Some (JObj [("error", JStr "Invalid credentials")]) |}.

Lemma signIn_outcome_witness :
  let d := {| log_email := "ann@example.com"; log_password := "pW" |} in
  let w := fresh_world empty_storage [Ok login_rejected] in
  fst (signIn web_env "http://h" d w)
  = Throw (HttpError "LOGIN_FAILED" 401 (JObj [("error", JStr "Invalid credentials")])) /\
  user (snd (signIn web_env "http://h" d w)) = None /\
  storage (snd (signIn web_env "http://h" d w)) = empty_storage.
Proof.
  pose proof (signIn_outcome web_env "http://h"
                {| log_email := "ann@example.com"; log_password := "pW" |}
                (fresh_world empty_storage [Ok login_rejected])
                login_rejected [] eq_refl) as H.
  change (ok login_rejected) with false in H. cbv zeta in H |- *.
  destruct H as [Hr Hw]. split; [exact Hr|]. rewrite Hw. by split.
Defined.

Lemma setTokens_then_getTokens_witness :
  fst (getTokens web_env
         (restart (snd (setTokens web_env (Some "a1") (Some "r1")
                          (fresh_world empty_storage [])))))
  = Ok (Some "a1", Some "r1").
Proof.
  destruct (setTokens_then_getTokens web_env "a1" "r1" (fresh_world empty_storage [])
              eq_refl eq_refl) as [_ H].
  apply H; [reflexivity| |]; by split.
Defined.


(** A device whose secure store reads and writes but refuses to delete. *)
Definition undeletable_module : SecureModule :=
  {| has_isAvailableAsync := true; isAvailableAsync := Some true;
     has_getItemAsync := true; has_setItemAsync := true; has_deleteItemAsync := true;
     getItemAsync_rejects := fun _ => false;
     setItemAsync_rejects := fun _ => false;
     deleteItemAsync_rejects := fun _ => true |}.

Definition undeletable_env : Env :=
  {| OS := Native; secure_import := Some undeletable_module;
     async_getItem_rejects := fun _ => false;
     async_setItem_rejects := fun _ => false;
     async_removeItem_rejects := fun _ => false |}.

Definition keychain_session : World :=
  {| accessTokenMem := Some "a1"; refreshTokenMem := Some "r1"; refreshInFlight := None;
     next_promise := 0;
     storage := {| secure := {[ "accessToken" := "a1"; "refreshToken" := "r1" ]};
                   async := ∅ |};
     server := []; sent := [];
     pending := fun _ => Throw NetworkError;
     user := Some (JObj [("id", JStr "u1")]); loading := false |}.

Lemma signOut_then_getAccessToken_witness :
  fst (getAccessToken web_env (snd (signOut web_env (signed_in_world [])))) = Ok None /\
  fst (getAccessToken undeletable_env (snd (signOut undeletable_env keychain_session)))
  = Ok (Some "a1").
Proof.
  split.
  - apply (signOut_then_getAccessToken web_env (signed_in_world []));
      [reflexivity | done | done | reflexivity].
  - apply (signOut_then_getAccessToken undeletable_env keychain_session);
      [reflexivity | done | done | reflexivity | reflexivity | reflexivity].
Defined.

End Auth.

(** ** The note deletion flow: app/(tabs)/notes.tsx *)

Module Notes.
Import SecureStorage.
Local Open Scope list_scope.

Definition SUMMARY_KEY (id : string) : string := ("note_summary_" ++ id)%string.
Definition INDEXED_KEY (id : string) : string := ("note_indexed_" ++ id)%string.

(** A note, with the fields the screen's flows read. *)
Record Note := { note_id : string; note_title : string }.

(** The screen: the provider's world, the event bus, and the component's
    React state. *)
Record Screen := {
  world : Auth.World;
  bus : EventBus.Bus;
  notes : list Note;
  selectedNoteId : option string;
  summaryText : string;
  indexedNoteIds : gset string;
  alerts : list (string * string)          (* Alert.alert(title, message) *)
}.

Definition with_world (w : Auth.World) (s : Screen) : Screen :=
  {| world := w; bus := bus s; notes := notes s; selectedNoteId := selectedNoteId s;
     summaryText := summaryText s; indexedNoteIds := indexedNoteIds s;
     alerts := alerts s |}.
Definition with_async (st : Storage) (s : Screen) : Screen :=
  with_world (Auth.with_storage st (world s)) s.
Definition with_bus (b : EventBus.Bus) (s : Screen) : Screen :=
  {| world := world s; bus := b; notes := notes s; selectedNoteId := selectedNoteId s;
     summaryText := summaryText s; indexedNoteIds := indexedNoteIds s;
     alerts := alerts s |}.
Definition setNotes (l : list Note) (s : Screen) : Screen :=
  {| world := world s; bus := bus s; notes := l; selectedNoteId := selectedNoteId s;
     summaryText := summaryText s; indexedNoteIds := indexedNoteIds s;
     alerts := alerts s |}.
Definition setSelectedNoteId (v : option string) (s : Screen) : Screen :=
  {| world := world s; bus := bus s; notes := notes s; selectedNoteId := v;
     summaryText := summaryText s; indexedNoteIds := indexedNoteIds s;
     alerts := alerts s |}.
Definition setSummaryText (v : string) (s : Screen) : Screen :=
  {| world := world s; bus := bus s; notes := notes s; selectedNoteId := selectedNoteId s;
     summaryText := v; indexedNoteIds := indexedNoteIds s; alerts := alerts s |}.
Definition setIndexedNoteIds (v : gset string) (s : Screen) : Screen :=
  {| world := world s; bus := bus s; notes := notes s; selectedNoteId := selectedNoteId s;
     summaryText := summaryText s; indexedNoteIds := v; alerts := alerts s |}.
Definition alert (title msg : string) (s : Screen) : Screen :=
  {| world := world s; bus := bus s; notes := notes s; selectedNoteId := selectedNoteId s;
     summaryText := summaryText s; indexedNoteIds := indexedNoteIds s;
     alerts := alerts s ++ [(title, msg)] |}.

Section WithConfig.

Variable e : Env.
Variable API_BASE : string.
(** What the subscribers of the bus do when called. *)
Variable body : EventBus.handler -> EventBus.payload -> list EventBus.action.

Definition delete_request (noteId token : string) : Auth.request :=
  {| Auth.url := (API_BASE ++ "/api/notes/" ++ noteId)%string;
     Auth.method := Some "DELETE";
     Auth.headers := {[ "Authorization" := ("Bearer " ++ token)%string ]};
     Auth.body := None |}.

(** [try { saved = await AsyncStorage.getItem(KEY); setSummaryText(saved || "") } catch {}] *)
Definition loadSummaryFromStorage (noteId : string) (s : Screen) : Screen :=
  match AsyncStorage_getItem e (SUMMARY_KEY noteId) (Auth.storage (world s)) with
  | Ok saved => setSummaryText (if truthy saved then default "" saved else "") s
  | Throw _ => s
  end.

(** [try { await AsyncStorage.removeItem(KEY); setIndexedNoteIds(...) } catch {}] *)
Definition clearIndexedFlag (noteId : string) (s : Screen) : Screen :=
  match AsyncStorage_removeItem e (INDEXED_KEY noteId) (Auth.storage (world s)) with
  | (Ok _, st) => setIndexedNoteIds (indexedNoteIds s ∖ {[ noteId ]}) (with_async st s)
  | (Throw _, _) => s
  end.

(** [typeof json?.error === "string" ? json.error : "Could not delete"] *)
Definition error_message (j : json) : string :=
  match field "error" j with
  | Some (JStr m) => m
  | _ => "Could not delete"
  end.

Definition keeps (noteId : string) (n : Note) : bool :=
  negb (String.eqb (note_id n) noteId).

(** The part of [deleteNote] after the backend accepted the deletion.
    [s0] is the state the closure was created with: [selectedNoteId] and
    [notes] are read from it. *)
Definition after_delete (noteId : string) (s0 s : Screen) : Screen :=
  let s1 := setNotes (filter (fun n => keeps noteId n = true) (notes s)) s in
  match AsyncStorage_removeItem e (SUMMARY_KEY noteId) (Auth.storage (world s1)) with
  | (Throw _, _) => alert "Delete error" "Something went wrong." s1       (* catch *)
  | (Ok _, st) =>
      let s2 := clearIndexedFlag noteId (with_async st s1) in
      let s3 := with_bus (EventBus.emit body "notes:changed" None (bus s2)) s2 in
      if bool_decide (selectedNoteId s0 = Some noteId) then
        match List.find (keeps noteId) (notes s0) with
        | Some next =>
            loadSummaryFromStorage (note_id next)
              (setSelectedNoteId (Some (note_id next)) s3)
        | None => setSummaryText "" (setSelectedNoteId None s3)
        end
      else s3
  end.

Definition deleteNote (noteId : string) (s : Screen) : Screen :=
  match Auth.getAccessToken e (world s) with
  | (Throw _, w1) =>
      alert "Delete error" "Something went wrong." (with_world w1 s)       (* catch *)
  | (Ok token, w1) =>
      match token with
      | Some tok =>
          if truthy token then
            match Auth.fetch (delete_request noteId tok) w1 with
            | (Throw _, w2) =>
                alert "Delete error" "Something went wrong." (with_world w2 s)
            | (Ok res, w2) =>
                if Auth.ok res then after_delete noteId s (with_world w2 s)
                else alert "Delete failed" (error_message (Auth.json_or_empty res))
                       (with_world w2 s)
            end
          else with_world w1 s                                             (* return *)
      | None => with_world w1 s
      end
  end.

(** What the generic store holds under a key. *)
Definition stored (k : string) (s : Screen) : option string :=
  async (Auth.storage (world s)) !! k.

Lemma stored_loadSummary k id s : stored k (loadSummaryFromStorage id s) = stored k s.
Proof.
  unfold loadSummaryFromStorage.
  by destruct (AsyncStorage_getItem _ _ _).
Qed.

Lemma removeItem_other k k' st :
  k <> k' -> async (snd (AsyncStorage_removeItem e k st)) !! k' = async st !! k'.
Proof.
  intros Hk. unfold AsyncStorage_removeItem.
  destruct (async_removeItem_rejects e k); simpl; [done|].
  by rewrite lookup_delete_ne.
Qed.

Lemma stored_clearIndexedFlag k id s :
  k <> INDEXED_KEY id -> stored k (clearIndexedFlag id s) = stored k s.
Proof.
  intros Hk. unfold clearIndexedFlag, stored.
  pose proof (removeItem_other (INDEXED_KEY id) k (Auth.storage (world s))) as R.
  destruct (AsyncStorage_removeItem _ _ _) as [[[]|x] st]; simpl in *; [|done].
  by apply R.
Qed.

Lemma stored_after_delete k id s0 s :
  k <> SUMMARY_KEY id -> k <> INDEXED_KEY id ->
  stored k (after_delete id s0 s) = stored k s.
Proof.
  intros Hs Hi. unfold after_delete.
  pose proof (removeItem_other (SUMMARY_KEY id) k (Auth.storage (world s))) as R.
  simpl.
  destruct (AsyncStorage_removeItem _ _ _) as [[[]|x] st]; simpl in *; [|done].
  assert (stored k (clearIndexedFlag id (with_async st (setNotes
            (filter (fun n => keeps id n = true) (notes s)) s))) = stored k s) as H.
  { rewrite stored_clearIndexedFlag by done. unfold stored. simpl. by apply R. }
  destruct (bool_decide _); [|exact H].
  destruct (List.find _ _); [by rewrite stored_loadSummary|exact H].
Qed.

Lemma stored_deleteNote k id s :
  k <> SUMMARY_KEY id -> k <> INDEXED_KEY id ->
  stored k (deleteNote id s) = stored k s.
Proof.
  intros Hs Hi. unfold deleteNote, Auth.getAccessToken. Auth.unfold_M.
  pose proof (Auth.getTokens_frame e (world s)) as F.
  destruct (Auth.getTokens e (world s)) as [[[a rt]|x] w1]; simpl in *;
    destruct F as (_ & _ & Fst & _); [|by unfold stored; simpl; rewrite Fst].
  destruct a as [tok|]; [|by unfold stored; simpl; rewrite Fst].
  destruct (truthy (Some tok)); [|by unfold stored; simpl; rewrite Fst].
  unfold Auth.fetch.
  destruct (Auth.server w1) as [|[res|x] rest]; simpl;
    try (by unfold stored; simpl; rewrite Fst).
  destruct (Auth.ok res); [|by unfold stored; simpl; rewrite Fst].
  rewrite stored_after_delete by done. unfold stored. simpl. by rewrite Fst.
Qed.

Lemma getAccessToken_frame w a w1 :
  Auth.getAccessToken e w = (Ok a, w1) ->
  Auth.server w1 = Auth.server w /\ Auth.sent w1 = Auth.sent w /\
  Auth.storage w1 = Auth.storage w.
Proof.
  unfold Auth.getAccessToken. Auth.unfold_M.
  pose proof (Auth.getTokens_frame e w) as F.
  destruct (Auth.getTokens e w) as [[[a' rt]|x] w0]; simpl in *; [|done].
  intros [= <- <-]. by destruct_and!.
Qed.

(** [deleteNote] with a stored access token and an answering backend:
    exactly one request goes out, the DELETE of that note.
    - When the backend refuses, the user is alerted with the backend's
      [error] text (or "Could not delete"), and the list, the bus and
      storage are as before: nothing is published.
    - When the backend accepts and AsyncStorage accepts the removal of
      the note's summary, the note is filtered out of the list, the
      summary is gone, no alert is raised and "notes:changed" is
      published once, with no note id.
    - When the backend accepts but AsyncStorage rejects the removal of
      the summary, the note has left the list, the user sees "Delete
      error", and nothing is published. *)
Theorem deleteNote_outcome
  (noteId tok : string) (s : Screen) (w1 : Auth.World)
  (res : Auth.response) (rest : list (result Auth.response)) :
  Auth.getAccessToken e (world s) = (Ok (Some tok), w1) ->
  truthy (Some tok) = true ->
  Auth.server (world s) = Ok res :: rest ->
  let s' := deleteNote noteId s in
  let kept := filter (fun n => keeps noteId n = true) (notes s) in
  Auth.sent (world s') = Auth.sent (world s) ++ [delete_request noteId tok] /\
  if Auth.ok res then
    notes s' = kept /\
    (async_removeItem_rejects e (SUMMARY_KEY noteId) = false ->
     stored (SUMMARY_KEY noteId) s' = None /\ alerts s' = alerts s /\
     bus s' = EventBus.emit body "notes:changed" None (bus s)) /\
    (async_removeItem_rejects e (SUMMARY_KEY noteId) = true ->
     alerts s' = alerts s ++ [("Delete error", "Something went wrong.")] /\
     bus s' = bus s)
  else
    notes s' = notes s /\ bus s' = bus s /\
    Auth.storage (world s') = Auth.storage (world s) /\
    alerts s' = alerts s ++ [("Delete failed", error_message (Auth.json_or_empty res))].
Proof.
  intros Hg Ht Hsv. simpl.
  destruct (getAccessToken_frame _ _ _ Hg) as (Fsv & Fsn & Fst).
  remember (deleteNote noteId s) as s' eqn:E.
  unfold deleteNote in E. rewrite Hg, Ht in E. unfold Auth.fetch in E.
  rewrite Fsv, Hsv, Fsn in E.
  destruct (Auth.ok res); simpl in E; [|subst s'; simpl; by rewrite Fst].
  unfold after_delete in E. simpl in E. rewrite Fst in E.
  unfold AsyncStorage_removeItem at 1 in E.
  destruct (async_removeItem_rejects e (SUMMARY_KEY noteId)) eqn:Hr; simpl in E.
  { subst s'. simpl. by split_and!. }
  revert E. set (s2 := clearIndexedFlag noteId _). intros E.
  assert (notes s2 = filter (fun n => keeps noteId n = true) (notes s) /\
          alerts s2 = alerts s /\ bus s2 = bus s /\
          Auth.sent (world s2) = Auth.sent (world s) ++ [delete_request noteId tok] /\
          stored (SUMMARY_KEY noteId) s2 = None) as (N2 & A2 & B2 & S2 & K2).
  { subst s2. rewrite stored_clearIndexedFlag.
    2:{ unfold SUMMARY_KEY, INDEXED_KEY. simpl. discriminate. }
    unfold clearIndexedFlag, stored. simpl.
    destruct (AsyncStorage_removeItem _ _ _) as [[[]|x] st]; simpl;
      by rewrite lookup_delete_eq. }
  destruct (bool_decide (selectedNoteId s = Some noteId)).
  - destruct (List.find (keeps noteId) (notes s)) as [next|]; subst s'.
    + rewrite stored_loadSummary. unfold loadSummaryFromStorage.
      destruct (AsyncStorage_getItem _ _ _); simpl; rewrite ?N2, ?A2, ?B2, ?S2;
        by split_and!.
    + simpl. rewrite ?N2, ?A2, ?B2, ?S2. by split_and!.
  - subst s'. simpl. rewrite ?N2, ?A2, ?B2, ?S2. by split_and!.
Qed.

(** Without a stored access token [deleteNote] does nothing at all: no
    request, no alert, no event. *)
Theorem deleteNote_without_token (noteId : string) (s : Screen) (w1 : Auth.World) :
  Auth.getAccessToken e (world s) = (Ok None, w1) ->
  deleteNote noteId s = with_world w1 s /\
  Auth.sent w1 = Auth.sent (world s) /\ Auth.storage w1 = Auth.storage (world s).
Proof.
  intros Hg. destruct (getAccessToken_frame _ _ _ Hg) as (_ & Fsn & Fst).
  unfold deleteNote. by rewrite Hg.
Qed.

End WithConfig.

(** C8 (the code departs from the claim).  [deleteNote] never clears the
    artifact cache: whatever the backend answers and whatever the
    subscribers do, the flashcards and quiz entries of every note,
    the deleted one included, are in AsyncStorage after the flow exactly
    as before it; [clearNoteTools] is not called before the
    "notes:changed" event is published, nor after. *)
Theorem deleteNote_leaves_artifact_cache
  (e : Env) (API_BASE : string)
  (body : EventBus.handler -> EventBus.payload -> list EventBus.action)
  (noteId id' : string) (s : Screen) :
  stored (ToolsCache.KEY_FC id') (deleteNote e API_BASE body noteId s)
  = stored (ToolsCache.KEY_FC id') s /\
  stored (ToolsCache.KEY_QZ id') (deleteNote e API_BASE body noteId s)
  = stored (ToolsCache.KEY_QZ id') s.
Proof.
  split; apply stored_deleteNote; unfold ToolsCache.KEY_FC, ToolsCache.KEY_QZ,
    SUMMARY_KEY, INDEXED_KEY; simpl; discriminate.
Qed.

(** A screen showing one note whose flashcards are cached, with one
    subscriber on the bus. *)
Definition one_note_screen : Screen :=
  {| world :=
       {| Auth.accessTokenMem := Some "a1"; Auth.refreshTokenMem := Some "r1";
          Auth.refreshInFlight := None; Auth.next_promise := 0;
          Auth.storage :=
            {| secure := ∅;
               async := {[ "tools:flashcards:n1" := "[]"; "note_summary_n1" := "sum" ]} |};
          Auth.server := [Ok {| Auth.status := 200; Auth.json_body := None |}];
          Auth.sent := []; Auth.pending := fun _ => Throw NetworkError;
          Auth.user := None; Auth.loading := false |};
     bus := EventBus.on "notes:changed" 1%nat EventBus.empty_bus;
     notes := [{| note_id := "n1"; note_title := "t" |}];
     selectedNoteId := Some "n1"; summaryText := "sum";
     indexedNoteIds := ∅; alerts := [] |}.

(** The deletion succeeds and is published, the summary is removed, and
    the cached flashcards of the deleted note are still served. *)
Example deleteNote_publishes_with_stale_cache :
  let s := deleteNote web_env "http://h" (fun _ _ => []) "n1" one_note_screen in
  notes s = [] /\
  EventBus.delivered (bus s) = [(1%nat, None)] /\
  stored "note_summary_n1" s = None /\
  ToolsCache.getFlashcards ToolsCache.parse_fragment web_env "n1"
    (Auth.storage (world s)) = JArr [] /\
  ToolsCache.getFlashcards ToolsCache.parse_fragment web_env "n1"
    (ToolsCache.clearNoteTools web_env "n1" (Auth.storage (world s))) = JNull.
Proof. vm_compute. done. Qed.

Lemma deleteNote_outcome_witness :
  let s := deleteNote web_env "http://h" (fun _ _ => []) "n1" one_note_screen in
  notes s = [] /\ stored "note_summary_n1" s = None /\ alerts s = [] /\
  EventBus.delivered (bus s) = [(1%nat, None)].
Proof.
  pose proof (deleteNote_outcome web_env "http://h" (fun _ _ => []) "n1" "a1"
                one_note_screen
                (snd (Auth.getAccessToken web_env (world one_note_screen)))
                {| Auth.status := 200; Auth.json_body := None |} []
                eq_refl eq_refl eq_refl) as H.
  cbv zeta in H. change (Auth.ok _) with true in H. cbv iota in H.
  destruct H as (_ & Hn & Hok & _). destruct (Hok eq_refl) as (Hk & Ha & Hb).
  cbv zeta. split_and!.
  - rewrite Hn. reflexivity.
  - exact Hk.
  - rewrite Ha. reflexivity.
  - rewrite Hb. vm_compute. reflexivity.
Defined.

(** The same screen after the session was lost. *)
Definition signed_out_screen : Screen :=
  with_world (Auth.fresh_world empty_storage []) one_note_screen.

Lemma deleteNote_without_token_witness :
  notes (deleteNote web_env "http://h" (fun _ _ => []) "n1" signed_out_screen)
  = notes signed_out_screen /\
  Auth.sent (world (deleteNote web_env "http://h" (fun _ _ => []) "n1" signed_out_screen))
  = [].
Proof.
  destruct (deleteNote_without_token web_env "http://h" (fun _ _ => []) "n1"
              signed_out_screen
              (snd (Auth.getAccessToken web_env (world signed_out_screen)))
              eq_refl) as (H & Hs & _).
  rewrite H. split; [reflexivity|]. exact Hs.
Defined.

End Notes.

(** ** Concurrent callers of [refreshAccessToken]

    JavaScript runs one task at a time and switches tasks only at an
    [await].  A caller of [refreshAccessToken] and the async body behind
    [refreshInFlight] are therefore sequences of atomic segments; a
    configuration records, for every caller and every refresh promise,
    the [await] it is suspended at, and the module-level variables they
    share.  Any interleaving of segments is a run. *)

Module Concurrent.
Import SecureStorage.
Local Open Scope list_scope.

(** Where a caller of [refreshAccessToken] is suspended. *)
Inductive caller :=
| NotCalled
| ReadingAccess                     (* getTokens: await getItem(ACCESS_KEY) *)
| ReadingRefresh                    (* getTokens: await getItem(REFRESH_KEY) *)
| AtGate (refreshToken : option string)
                                    (* await getTokens() has its value *)
| Owner (p : nat)                   (* try { return await refreshInFlight } finally ... *)
| Joined (p : nat)                  (* return refreshInFlight *)
| Returned (o : result string).

(** Where the async body of a refresh is suspended; the promise it backs
    is pending until [Settled]. *)
Inductive refresher :=
| AwaitingFetch (refreshToken : string)                  (* await fetch(...) *)
| StoringAccess (a r : option string) (o : result string)
                                    (* setTokens: the ACCESS_KEY write *)
| StoringRefresh (r : option string) (o : result string)
                                    (* setTokens: the REFRESH_KEY write *)
| Settled (o : result string).

Record Config := {
  accessTokenMem : option string;
  refreshTokenMem : option string;
  refreshInFlight : option nat;
  storage : Storage;
  sent : list Auth.request;
  callers : list caller;
  promises : list refresher
}.

Definition set_caller (i : nat) (k : caller) (c : Config) : Config :=
  {| accessTokenMem := accessTokenMem c; refreshTokenMem := refreshTokenMem c;
     refreshInFlight := refreshInFlight c; storage := storage c; sent := sent c;
     callers := <[i := k]> (callers c); promises := promises c |}.

Definition set_promise (p : nat) (r : refresher) (c : Config) : Config :=
  {| accessTokenMem := accessTokenMem c; refreshTokenMem := refreshTokenMem c;
     refreshInFlight := refreshInFlight c; storage := storage c; sent := sent c;
     callers := callers c; promises := <[p := r]> (promises c) |}.

Definition set_memory (a r : option string) (c : Config) : Config :=
  {| accessTokenMem := a; refreshTokenMem := r;
     refreshInFlight := refreshInFlight c; storage := storage c; sent := sent c;
     callers := callers c; promises := promises c |}.

Definition set_marker (m : option nat) (c : Config) : Config :=
  {| accessTokenMem := accessTokenMem c; refreshTokenMem := refreshTokenMem c;
     refreshInFlight := m; storage := storage c; sent := sent c;
     callers := callers c; promises := promises c |}.

Definition set_storage (st : Storage) (c : Config) : Config :=
  {| accessTokenMem := accessTokenMem c; refreshTokenMem := refreshTokenMem c;
     refreshInFlight := refreshInFlight c; storage := st; sent := sent c;
     callers := callers c; promises := promises c |}.

(** The async body starts: its request goes out and its promise exists. *)
Definition start_refresh (rq : Auth.request) (t : string) (c : Config) : Config :=
  {| accessTokenMem := accessTokenMem c; refreshTokenMem := refreshTokenMem c;
     refreshInFlight := Some (List.length (promises c)); storage := storage c;
     sent := sent c ++ [rq];
     callers := callers c; promises := promises c ++ [AwaitingFetch t] |}.

Section WithConfig.

Variable e : Env.
Variable API_BASE : string.

(** [getTokens] from its second statement on. *)
Definition after_access (c : Config) : caller :=
  if truthy (refreshTokenMem c) then AtGate (refreshTokenMem c) else ReadingRefresh.

(** The next segment of caller [i]; [None] when it cannot run now. *)
Definition run_caller (i : nat) (c : Config) : option Config :=
  match callers c !! i with
  | None => None
  | Some NotCalled =>
      Some (set_caller i
              (if truthy (accessTokenMem c) then after_access c else ReadingAccess) c)
  | Some ReadingAccess =>
      match getItem e Auth.ACCESS_KEY (storage c) with
      | Ok v =>
          let c1 := set_memory v (refreshTokenMem c) c in
          Some (set_caller i (after_access c1) c1)
      | Throw x => Some (set_caller i (Returned (Throw x)) c)
      end
  | Some ReadingRefresh =>
      match getItem e Auth.REFRESH_KEY (storage c) with
      | Ok v => Some (set_caller i (AtGate v) (set_memory (accessTokenMem c) v c))
      | Throw x => Some (set_caller i (Returned (Throw x)) c)
      end
  | Some (AtGate refreshToken) =>
      match refreshToken with
      | Some t =>
          if truthy refreshToken then
            match refreshInFlight c with
            | Some p => Some (set_caller i (Joined p) c)
            | None =>
                Some (set_caller i (Owner (List.length (promises c)))
                        (start_refresh (Auth.refresh_request API_BASE t) t c))
            end
          else Some (set_caller i (Returned (Throw (Error "No refresh token"))) c)
      | None => Some (set_caller i (Returned (Throw (Error "No refresh token"))) c)
      end
  | Some (Owner p) =>
      match promises c !! p with
      | Some (Settled o) => Some (set_caller i (Returned o) (set_marker None c))
      | _ => None
      end
  | Some (Joined p) =>
      match promises c !! p with
      | Some (Settled o) => Some (set_caller i (Returned o) c)
      | _ => None
      end
  | Some (Returned _) => None
  end.

(** The refresh request of promise [p] is answered ([Throw]: [fetch]
    rejects). *)
Definition answer (p : nat) (a : result Auth.response) (c : Config) : option Config :=
  match promises c !! p with
  | Some (AwaitingFetch t) =>
      match a with
      | Throw x => Some (set_promise p (Settled (Throw x)) c)
      | Ok res =>
          match Auth.refresh_verdict res with
          | Ok a' =>
              Some (set_promise p (StoringAccess (Some a') (Some t) (Ok a'))
                      (set_memory (Some a') (Some t) c))
          | Throw x =>
              Some (set_promise p (StoringAccess None None (Throw x))
                      (set_memory None None c))
          end
      end
  | _ => None
  end.

(** The storage write promise [p] waits for completes. *)
Definition stored (p : nat) (c : Config) : option Config :=
  match promises c !! p with
  | Some (StoringAccess a r o) =>
      match Auth.write_token e Auth.ACCESS_KEY a (storage c) with
      | (Ok _, st) => Some (set_promise p (StoringRefresh r o) (set_storage st c))
      | (Throw x, st) => Some (set_promise p (Settled (Throw x)) (set_storage st c))
      end
  | Some (StoringRefresh r o) =>
      match Auth.write_token e Auth.REFRESH_KEY r (storage c) with
      | (Ok _, st) =>
          Some (set_promise p (Settled o) (set_marker None (set_storage st c)))
      | (Throw x, st) => Some (set_promise p (Settled (Throw x)) (set_storage st c))
      end
  | _ => None
  end.

Inductive event :=
| Run (i : nat)
| Answer (p : nat) (a : result Auth.response)
| Stored (p : nat).

Definition step (ev : event) (c : Config) : option Config :=
  match ev with
  | Run i => run_caller i c
  | Answer p a => answer p a c
  | Stored p => stored p c
  end.

Fixpoint run (sch : list event) (c : Config) : option Config :=
  match sch with
  | [] => Some c
  | ev :: rest =>
      match step ev c with
      | Some c' => run rest c'
      | None => None
      end
  end.

(** *** Runs in which every call reaches the in-flight check before the
    refresh request is answered *)

Definition past_gate (k : caller) : bool :=
  match k with
  | Owner _ | Joined _ | Returned _ => true
  | _ => false
  end.





Definition is_settled (r : refresher) : bool :=
  match r with Settled _ => true | _ => false end.

End WithConfig.

(** *** Every run is finite *)

Definition weight_caller (k : caller) : nat :=
  match k with
  | NotCalled => 8
  | ReadingAccess => 7
  | ReadingRefresh => 6
  | AtGate _ => 5
  | Owner _ | Joined _ => 1
  | Returned _ => 0
  end.

Definition weight_refresher (r : refresher) : nat :=
  match r with
  | AwaitingFetch _ => 3
  | StoringAccess _ _ _ => 2
  | StoringRefresh _ _ => 1
  | Settled _ => 0
  end.

(** The number of segments still to run is at most this. *)
Definition measure (c : Config) : nat :=
  sum_list_with weight_caller (callers c) + sum_list_with weight_refresher (promises c).

Lemma sum_list_with_insert {A} (f : A -> nat) (l : list A) i x y :
  l !! i = Some x ->
  (sum_list_with f (<[i:=y]> l) + f x = sum_list_with f l + f y)%nat.
Proof.
  revert i. induction l as [|z l IH]; intros [|i] Hi; simplify_eq /=; [lia|].
  specialize (IH i Hi). lia.
Qed.

Lemma measure_set_caller i k k' c :
  callers c !! i = Some k ->
  (measure (set_caller i k' c) + weight_caller k = measure c + weight_caller k')%nat.
Proof.
  intros Hi. unfold measure. simpl.
  pose proof (sum_list_with_insert weight_caller _ _ _ k' Hi). lia.
Qed.

Lemma measure_set_promise p r r' c :
  promises c !! p = Some r ->
  (measure (set_promise p r' c) + weight_refresher r
   = measure c + weight_refresher r')%nat.
Proof.
  intros Hp. unfold measure. simpl.
  pose proof (sum_list_with_insert weight_refresher _ _ _ r' Hp). lia.
Qed.

Lemma measure_start_refresh rq t c :
  measure (start_refresh rq t c) = (measure c + 3)%nat.
Proof. unfold measure. simpl. rewrite sum_list_with_app. simpl. lia. Qed.

Lemma step_decreases e API_BASE ev c c' :
  step e API_BASE ev c = Some c' -> (measure c' < measure c)%nat.
Proof.
  destruct ev as [i|p a|p]; simpl.
  - unfold run_caller. destruct (callers c !! i) as [k|] eqn:Hi; [|done].
    destruct k as [| | |rt|p|p|o].
    + intros [= <-]. pose proof (measure_set_caller i _
        (if truthy (accessTokenMem c) then after_access c else ReadingAccess) c Hi).
      unfold after_access in *.
      destruct (truthy (accessTokenMem c)), (truthy (refreshTokenMem c));
        simpl in *; lia.
    + destruct (getItem _ _ _) as [v|x]; intros [= <-].
      * match goal with |- context [set_caller i ?k' ?c1] =>
          pose proof (measure_set_caller i ReadingAccess k' c1 Hi) as M end.
        unfold after_access in *. simpl in *.
        destruct (truthy (refreshTokenMem c)); simpl in *;
          unfold measure in *; simpl in *; lia.
      * pose proof (measure_set_caller i _ (Returned (Throw x)) c Hi).
        simpl in *. lia.
    + destruct (getItem _ _ _) as [v|x]; intros [= <-].
      * match goal with |- context [set_caller i ?k' ?c1] =>
          pose proof (measure_set_caller i ReadingRefresh k' c1 Hi) as M end.
        simpl in *. unfold measure in *; simpl in *; lia.
      * pose proof (measure_set_caller i _ (Returned (Throw x)) c Hi).
        simpl in *. lia.
    + destruct rt as [t|].
      2:{ intros [= <-].
          pose proof (measure_set_caller i _ (Returned (Throw (Error "No refresh token")))
                        c Hi). simpl in *. lia. }
      destruct (truthy (Some t)).
      2:{ intros [= <-].
          pose proof (measure_set_caller i _ (Returned (Throw (Error "No refresh token")))
                        c Hi). simpl in *. lia. }
      destruct (refreshInFlight c) as [q|]; intros [= <-].
      * pose proof (measure_set_caller i _ (Joined q) c Hi). simpl in *. lia.
      * match goal with |- context [set_caller i ?k' ?c1] =>
          pose proof (measure_set_caller i (AtGate (Some t)) k' c1 Hi) as M end.
        rewrite measure_start_refresh in M. simpl in *. lia.
    + destruct (promises c !! p) as [[| | |o]|]; try done. intros [= <-].
      match goal with |- context [set_caller i ?k' ?c1] =>
        pose proof (measure_set_caller i (Owner p) k' c1 Hi) as M end.
      simpl in *. unfold measure in *; simpl in *; lia.
    + destruct (promises c !! p) as [[| | |o]|]; try done. intros [= <-].
      pose proof (measure_set_caller i _ (Returned o) c Hi). simpl in *. lia.
    + done.
  - unfold answer. destruct (promises c !! p) as [[t| | |]|] eqn:Hp; try done.
    destruct a as [res|x].
    + destruct (Auth.refresh_verdict res) as [a'|x]; intros [= <-];
        match goal with |- context [set_promise p ?r' ?c1] =>
          pose proof (measure_set_promise p (AwaitingFetch t) r' c1 Hp) as M end;
        simpl in *; unfold measure in *; simpl in *; lia.
    + intros [= <-].
      pose proof (measure_set_promise p _ (Settled (Throw x)) c Hp). simpl in *. lia.
  - unfold stored. destruct (promises c !! p) as [[t|a r o|r o|]|] eqn:Hp; try done.
    + destruct (Auth.write_token _ _ _ _) as [[[]|x] st]; intros [= <-];
        match goal with |- context [set_promise p ?r' ?c1] =>
          pose proof (measure_set_promise p (StoringAccess a r o) r' c1 Hp) as M end;
        simpl in *; unfold measure in *; simpl in *; lia.
    + destruct (Auth.write_token _ _ _ _) as [[[]|x] st]; intros [= <-];
        match goal with |- context [set_promise p ?r' ?c1] =>
          pose proof (measure_set_promise p (StoringRefresh r o) r' c1 Hp) as M end;
        simpl in *; unfold measure in *; simpl in *; lia.
Qed.



(** Any interleaving at all, gated or not, from any configuration: the
    run has at most [measure c] segments, so no caller waits for ever
    on the others. *)
Theorem every_run_is_finite
  (e : Env) (API_BASE : string) (sch : list event) (c c' : Config) :
  run e API_BASE sch c = Some c' ->
  (List.length sch + measure c' <= measure c)%nat.
Proof.
  revert c. induction sch as [|ev sch IH]; intros c; simpl.
  - intros [= <-]. lia.
  - destruct (step e API_BASE ev c) as [c1|] eqn:Hs; [|done].
    intros Hr. specialize (IH _ Hr). apply step_decreases in Hs. lia.
Qed.

(** *** Requests in arbitrary interleavings *)

(** The callers that have not passed the in-flight check yet. *)
Definition before_gate (c : Config) : nat :=
  List.length (filter (fun k => past_gate k = false) (callers c)).

Lemma before_gate_insert i k k' (l : list caller) :
  l !! i = Some k ->
  (List.length (filter (fun k => past_gate k = false) (<[i:=k']> l))
   + (if past_gate k then 0 else 1)
   = List.length (filter (fun k => past_gate k = false) l)
     + (if past_gate k' then 0 else 1))%nat.
Proof.
  revert i. induction l as [|x l IH]; intros [|i] Hi; simplify_eq /=.
  - rewrite !filter_cons. destruct (past_gate k), (past_gate k');
      repeat case_decide; simpl; try done; lia.
  - specialize (IH i Hi). rewrite !filter_cons.
    case_decide; simpl; lia.
Qed.

Lemma step_requests e API_BASE ev c c' :
  step e API_BASE ev c = Some c' ->
  (List.length (sent c') + before_gate c' <= List.length (sent c) + before_gate c)%nat
  /\
  (List.length (sent c') + List.length (promises c)
   = List.length (sent c) + List.length (promises c'))%nat.
Proof.
  unfold before_gate.
  destruct ev as [i|p a|p]; simpl.
  - unfold run_caller. destruct (callers c !! i) as [k|] eqn:Hi; [|done].
    destruct k as [| | |rt|p|p|o].
    + intros [= <-]. simpl.
      pose proof (before_gate_insert i NotCalled
        (if truthy (accessTokenMem c) then after_access c else ReadingAccess) _ Hi) as B.
      unfold after_access in *.
      destruct (truthy (accessTokenMem c)), (truthy (refreshTokenMem c));
        simpl in *; lia.
    + destruct (getItem _ _ _) as [v|x]; intros [= <-]; simpl.
      * match goal with |- context [<[i:=?k']> _] =>
          pose proof (before_gate_insert i ReadingAccess k' _ Hi) as B end.
        unfold after_access in *. simpl in *.
        destruct (truthy (refreshTokenMem c)); simpl in *; lia.
      * pose proof (before_gate_insert i ReadingAccess (Returned (Throw x)) _ Hi).
        simpl in *. lia.
    + destruct (getItem _ _ _) as [v|x]; intros [= <-]; simpl.
      * pose proof (before_gate_insert i ReadingRefresh (AtGate v) _ Hi).
        simpl in *. lia.
      * pose proof (before_gate_insert i ReadingRefresh (Returned (Throw x)) _ Hi).
        simpl in *. lia.
    + pose proof (before_gate_insert i (AtGate rt)
                    (Returned (Throw (Error "No refresh token"))) _ Hi) as B1.
      destruct rt as [t|]; [|intros [= <-]; simpl in *; lia].
      destruct (truthy (Some t)); [|intros [= <-]; simpl in *; lia].
      destruct (refreshInFlight c) as [q|]; intros [= <-]; simpl.
      * pose proof (before_gate_insert i (AtGate (Some t)) (Joined q) _ Hi).
        simpl in *. lia.
      * pose proof (before_gate_insert i (AtGate (Some t))
                      (Owner (List.length (promises c))) _ Hi).
        rewrite !length_app. simpl in *. lia.
    + destruct (promises c !! p) as [[| | |o]|]; try done. intros [= <-]. simpl.
      pose proof (before_gate_insert i (Owner p) (Returned o) _ Hi). simpl in *. lia.
    + destruct (promises c !! p) as [[| | |o]|]; try done. intros [= <-]. simpl.
      pose proof (before_gate_insert i (Joined p) (Returned o) _ Hi). simpl in *. lia.
    + done.
  - unfold answer. destruct (promises c !! p) as [[t| | |]|] eqn:Hp; try done.
    destruct a as [res|x]; [destruct (Auth.refresh_verdict res) as [a'|x]|];
      intros [= <-]; simpl; rewrite length_insert; lia.
  - unfold stored. destruct (promises c !! p) as [[t|a r o|r o|]|] eqn:Hp; try done;
      destruct (Auth.write_token _ _ _ _) as [[[]|x] st]; intros [= <-]; simpl;
      rewrite length_insert; lia.
Qed.

(** However the segments interleave, a refresh request is only ever
    issued together with the promise that is registered as in flight
    (requests and promises grow in step), and each call issues at most
    one: the requests issued during a run are at most the calls that had
    not yet passed the in-flight check when it began. *)
Theorem at_most_one_request_per_call
  (e : Env) (API_BASE : string) (sch : list event) (c c' : Config) :
  run e API_BASE sch c = Some c' ->
  (List.length (sent c') + before_gate c' <= List.length (sent c) + before_gate c)%nat
  /\
  (List.length (sent c') + List.length (promises c)
   = List.length (sent c) + List.length (promises c'))%nat.
Proof.
  revert c. induction sch as [|ev sch IH]; intros c; simpl.
  - intros [= <-]. lia.
  - destruct (step e API_BASE ev c) as [c1|] eqn:Hs; [|done].
    intros Hr. specialize (IH _ Hr). apply step_requests in Hs. lia.
Qed.

(** *** The invariant of gated runs *)



Section SingleFlight.

Variable e : Env.
Variable API_BASE : string.
(** The refresh credential in memory, and the promises, requests and
    storage at the start. *)
Variable t : string.
Variable ps0 : list refresher.
Variable log0 : list Auth.request.
Variable st0 : Storage.
Hypothesis t_truthy : truthy (Some t) = true.
Hypothesis ps0_settled : Forall (fun r => is_settled r = true) ps0.
















Lemma settled_cannot_step q r c :
  promises c !! q = Some r -> is_settled r = true ->
  (forall a, answer q a c = None) /\ stored e q c = None.
Proof.
  intros Hq Hr. unfold answer, stored. rewrite Hq. by destruct r.
Qed.





(** *** No run gets stuck before every caller has returned *)




(** *** What holds once every caller has returned *)






End SingleFlight.



(** [n] callers that have not called yet, in a signed-in process. *)
Definition idle (n : nat) (a r : option string) (st : Storage) : Config :=
  {| accessTokenMem := a; refreshTokenMem := r; refreshInFlight := None;
     storage := st; sent := []; callers := replicate n NotCalled; promises := [] |}.




(** Without the gate on the schedule the check can come too late: the
    second caller is still inside [getTokens], waiting for storage, when
    the first refresh completes; it then finds no marker and issues a
    second refresh request. *)
Example late_credential_read_starts_second_refresh :
  exists c',
    run web_env "http://h"
      [Run 0; Run 1; Run 0; Run 0; Answer 0 (Ok Auth.refresh_ok); Stored 0; Stored 0;
       Run 0; Run 1; Run 1]%nat
      (idle 2 None (Some "r1") Auth.both_tokens) = Some c' /\
    List.length (sent c') = 2%nat /\
    callers c' = [Returned (Ok "a2"); Owner 1%nat].
Proof. eexists. split; [vm_compute; reflexivity|]. vm_compute. done. Qed.

Lemma every_run_is_finite_witness :
  exists c',
    run web_env "http://h"
      [Run 0; Run 1; Run 0; Run 0; Answer 0 (Ok Auth.refresh_ok); Stored 0; Stored 0;
       Run 0; Run 1; Run 1]%nat
      (idle 2 None (Some "r1") Auth.both_tokens) = Some c' /\
    (10 + measure c' <= measure (idle 2 None (Some "r1") Auth.both_tokens))%nat.
Proof.
  eexists. split; [vm_compute; reflexivity|].
  apply (every_run_is_finite web_env "http://h"
           [Run 0; Run 1; Run 0; Run 0; Answer 0 (Ok Auth.refresh_ok);
            Stored 0; Stored 0; Run 0; Run 1; Run 1]%nat).
  vm_compute. reflexivity.
Defined.

Lemma at_most_one_request_per_call_witness :
  exists c',
    run web_env "http://h"
      [Run 0; Run 1; Run 0; Run 0; Answer 0 (Ok Auth.refresh_ok); Stored 0; Stored 0;
       Run 0; Run 1; Run 1]%nat
      (idle 2 None (Some "r1") Auth.both_tokens) = Some c' /\
    (List.length (sent c') + before_gate c' <= 0 + 2)%nat.
Proof.
  eexists. split; [vm_compute; reflexivity|].
  match goal with |- (List.length (sent ?c) + _ <= _)%nat =>
    destruct (at_most_one_request_per_call web_env "http://h"
                [Run 0; Run 1; Run 0; Run 0; Answer 0 (Ok Auth.refresh_ok);
                 Stored 0; Stored 0; Run 0; Run 1; Run 1]%nat
                (idle 2 None (Some "r1") Auth.both_tokens) c) as [H _]
  end.
  - vm_compute. reflexivity.
  - exact H.
Defined.

(** *** One caller alone: the sequential reading of the code *)

(** The configuration of one caller about to call, in the world [w]. *)
Definition alone (w : Auth.World) : Config :=
  {| accessTokenMem := Auth.accessTokenMem w;
     refreshTokenMem := Auth.refreshTokenMem w;
     refreshInFlight := Auth.refreshInFlight w;
     storage := Auth.storage w; sent := Auth.sent w;
     callers := [NotCalled]; promises := [] |}.

(** The next answer of the scripted network. *)
Definition next_answer (w : Auth.World) : result Auth.response :=
  match Auth.server w with
  | [] => Throw NetworkError
  | a :: _ => a
  end.

(** With one caller there is one segment that can run: the caller's, or
    else the refresh's. *)
Definition solo_event (c : Config) (a : result Auth.response) : event :=
  match callers c !! 0%nat with
  | Some (Owner p) =>
      match promises c !! p with
      | Some (AwaitingFetch _) => Answer p a
      | Some (Settled _) => Run 0
      | _ => Stored p
      end
  | _ => Run 0
  end.

Fixpoint solo (e : Env) (API_BASE : string) (fuel : nat)
  (a : result Auth.response) (c : Config) : Config :=
  match fuel with
  | O => c
  | S n =>
      match step e API_BASE (solo_event c a) c with
      | Some c' => solo e API_BASE n a c'
      | None => c
      end
  end.

Definition observe (c : Config)
  : option string * option string * option nat * Storage * list Auth.request :=
  (accessTokenMem c, refreshTokenMem c, refreshInFlight c, storage c, sent c).

Definition observe_world (w : Auth.World)
  : option string * option string * option nat * Storage * list Auth.request :=
  (Auth.accessTokenMem w, Auth.refreshTokenMem w, Auth.refreshInFlight w,
   Auth.storage w, Auth.sent w).

(** One caller at [k] in the world [w], with the refreshes [ps]. *)
Definition solo_config (w : Auth.World) (k : caller) (ps : list refresher) : Config :=
  {| accessTokenMem := Auth.accessTokenMem w;
     refreshTokenMem := Auth.refreshTokenMem w;
     refreshInFlight := Auth.refreshInFlight w;
     storage := Auth.storage w; sent := Auth.sent w;
     callers := [k]; promises := ps |}.

Lemma solo_done e API_BASE n a c o :
  callers c = [Returned o] -> solo e API_BASE n a c = c.
Proof.
  intros H. destruct n as [|n]; [done|].
  simpl. unfold solo_event. rewrite H. simpl. unfold run_caller. by rewrite H.
Qed.

Lemma solo_S e API_BASE n a c :
  solo e API_BASE (S n) a c =
  match step e API_BASE (solo_event c a) c with
  | Some c' => solo e API_BASE n a c'
  | None => c
  end.
Proof. done. Qed.

Arguments solo : simpl never.

Ltac solo_step :=
  rewrite solo_S; unfold solo_event; cbn -[Auth.write_token];
  try (unfold run_caller; cbn -[Auth.write_token]);
  try (unfold answer; cbn -[Auth.write_token]);
  try (unfold stored; cbn -[Auth.write_token]).

Ltac solo_end := erewrite solo_done by reflexivity.

(** [refreshAccessToken] after [await getTokens()]. *)
#[local] Existing Instance Auth.M_ret.
#[local] Existing Instance Auth.M_bind.

Definition after_getTokens (e : Env) (API_BASE : string) (refreshToken : option string)
  : Auth.M string :=
  match refreshToken with
  | Some rt =>
      if truthy refreshToken then
        inflight ← Auth.gets Auth.refreshInFlight;
        match inflight with
        | Some p => Auth.await_pending p
        | None =>
            p ← Auth.gets Auth.next_promise;
            Auth.modify (Auth.with_next_promise (S p));;
            Auth.modify (Auth.with_refreshInFlight (Some p));;
            Auth.try_finally (Auth.refresh_body e API_BASE rt)
              (Auth.with_refreshInFlight None)
        end
      else Auth.throw (Error "No refresh token")
  | None => Auth.throw (Error "No refresh token")
  end.

Lemma refreshAccessToken_after_getTokens e API_BASE :
  Auth.refreshAccessToken e API_BASE =
  ('(_, refreshToken) ← Auth.getTokens e; after_getTokens e API_BASE refreshToken).
Proof. reflexivity. Qed.

(** From the in-flight check on. *)
Lemma solo_from_gate e API_BASE (w : Auth.World) (r : option string) (n : nat) :
  Auth.refreshInFlight w = None ->
  let out := after_getTokens e API_BASE r w in
  let c := solo e API_BASE (5 + n) (next_answer w) (solo_config w (AtGate r) []) in
  callers c = [Returned out.1] /\ observe c = observe_world out.2.
Proof.
  intros Hm out c. subst out c. unfold after_getTokens. simpl plus.
  solo_step.
  destruct r as [rt|]; [|solo_end; simpl; done].
  destruct (truthy (Some rt)) eqn:Tr; [|solo_end; simpl; done].
  Auth.unfold_M. rewrite !Hm. cbn -[Auth.write_token].
  unfold Auth.refresh_body, Auth.fetch. Auth.unfold_M. cbn -[Auth.write_token].
  solo_step.
  unfold next_answer.
  destruct (Auth.server w) as [|[res|x] rest]; cbn -[Auth.write_token].
  - solo_step. solo_end. done.
  - destruct (Auth.refresh_verdict res) as [a'|x] eqn:Ev; cbn -[Auth.write_token].
    + rewrite Auth.setTokens_cases. cbn -[Auth.write_token].
      solo_step.
      destruct (Auth.write_token e Auth.ACCESS_KEY (Some a') (Auth.storage w))
        as [[[]|x1] st1]; cbn -[Auth.write_token].
      * solo_step.
        destruct (Auth.write_token e Auth.REFRESH_KEY (Some rt) st1)
          as [[[]|x2] st2]; cbn -[Auth.write_token].
        -- solo_step. solo_end. done.
        -- solo_step. solo_end. done.
      * solo_step. solo_end. done.
    + rewrite Auth.setTokens_cases. cbn -[Auth.write_token].
      solo_step.
      destruct (Auth.write_token e Auth.ACCESS_KEY None (Auth.storage w))
        as [[[]|x1] st1]; cbn -[Auth.write_token].
      * solo_step.
        destruct (Auth.write_token e Auth.REFRESH_KEY None st1)
          as [[[]|x2] st2]; cbn -[Auth.write_token].
        -- solo_step. solo_end. done.
        -- solo_step. solo_end. done.
      * solo_step. solo_end. done.
  - solo_step. solo_end. done.
Qed.

(** The machine agrees with the sequential reading of the code.  With
    one caller and no refresh in flight, running the caller's and the
    refresh's segments in the only order possible ends with the caller
    returned, with the outcome [Auth.refreshAccessToken] computes, and
    with the same credentials in memory and in storage, the same
    in-flight marker and the same requests sent.  Eight segments are
    enough. *)
Theorem one_caller_runs_refreshAccessToken e API_BASE (w : Auth.World) (fuel : nat) :
  Auth.refreshInFlight w = None -> (8 <= fuel)%nat ->
  let c := solo e API_BASE fuel (next_answer w) (alone w) in
  callers c = [Returned (fst (Auth.refreshAccessToken e API_BASE w))] /\
  observe c = observe_world (snd (Auth.refreshAccessToken e API_BASE w)).
Proof.
  intros Hm Hf c. subst c.
  destruct fuel as [|[|[|[|[|[|[|[|n]]]]]]]]; try lia. clear Hf.
  rewrite refreshAccessToken_after_getTokens.
  unfold mbind, Auth.M_bind.
  rewrite Auth.getTokens_cases. unfold Auth.read_through.
  solo_step.
  destruct (truthy (Auth.accessTokenMem w)) eqn:Ta.
  - unfold after_access; simpl.
    destruct (truthy (Auth.refreshTokenMem w)) eqn:Tr.
    + apply (solo_from_gate e API_BASE
               (Auth.with_refreshTokenMem (Auth.refreshTokenMem w)
                  (Auth.with_accessTokenMem (Auth.accessTokenMem w) w))
               (Auth.refreshTokenMem w) (2 + n) Hm).
    + solo_step.
      destruct (getItem e Auth.REFRESH_KEY (Auth.storage w)) as [v|x]; simpl.
      * apply (solo_from_gate e API_BASE
               (Auth.with_refreshTokenMem v
                  (Auth.with_accessTokenMem (Auth.accessTokenMem w) w))
               v (1 + n) Hm).
      * solo_end. simpl. done.
  - solo_step.
    destruct (getItem e Auth.ACCESS_KEY (Auth.storage w)) as [va|x]; simpl.
    + unfold after_access; simpl.
      destruct (truthy (Auth.refreshTokenMem w)) eqn:Tr.
      * apply (solo_from_gate e API_BASE
               (Auth.with_refreshTokenMem (Auth.refreshTokenMem w)
                  (Auth.with_accessTokenMem va w))
               (Auth.refreshTokenMem w) (1 + n) Hm).
      * solo_step.
        destruct (getItem e Auth.REFRESH_KEY (Auth.storage w)) as [v|x]; simpl.
        -- apply (solo_from_gate e API_BASE
               (Auth.with_refreshTokenMem v (Auth.with_accessTokenMem va w))
               v n Hm).
        -- solo_end. simpl. done.
    + solo_end. simpl. done.
Qed.

Lemma one_caller_runs_refreshAccessToken_witness :
  callers (solo web_env "http://h" 8
             (next_answer (Auth.fresh_world Auth.both_tokens [Ok Auth.refresh_ok]))
             (alone (Auth.fresh_world Auth.both_tokens [Ok Auth.refresh_ok]))) =
  [Returned (fst (Auth.refreshAccessToken web_env "http://h"
                    (Auth.fresh_world Auth.both_tokens [Ok Auth.refresh_ok])))] /\
  fst (Auth.refreshAccessToken web_env "http://h"
         (Auth.fresh_world Auth.both_tokens [Ok Auth.refresh_ok])) = Ok "a2".
Proof.
  split; [|vm_compute; reflexivity].
  apply (one_caller_runs_refreshAccessToken web_env "http://h"
           (Auth.fresh_world Auth.both_tokens [Ok Auth.refresh_ok]) 8).
  - reflexivity.
  - lia.
Defined.

End Concurrent.

